(** * mirrormaker: the relay engine of [main.go]

    A shallow embedding of the partition router ([PartitionMsg]), of the
    consumer-group handler ([Consumer.Setup], [Consumer.ConsumeClaim]), of
    the part of [main] that builds the handler and drives the sessions, of
    [getCompressionCodec], of the run loop of [main] with its error meters,
    and of the close loop at the end of [main].

    Go values are modelled as follows.
    - [int32] is a [Z] in the range of [in_int32]; subtraction and
      remainder wrap around as the machine does ([sub32], [rem32]).
    - [[]byte] is a [list Byte.byte]; [len(b) == 0] holds for the nil and for
      the empty slice alike, both are [[]].
    - the [sarama.Encoder] interface is an [option]: [None] is the nil
      interface, [Some b] is [sarama.ByteEncoder(b)].
    - [error] is an [option RoutingError]; [None] is [nil].
    - a function that may panic returns a [go_result].
    - channels live in a store indexed by their identity. *)

From Stdlib Require Import ZArith String Ascii List Lia Bool.
From stdpp Require Import base gmap list strings.
Import ListNotations.

Local Open Scope string_scope.
Local Open Scope Z_scope.

(** ** Machine integers *)

Module Int32.

Definition min_int32 : Z := -2147483648.
Definition max_int32 : Z := 2147483647.

Definition in_int32 (z : Z) : Prop := min_int32 <= z <= max_int32.

(** Two's complement reduction of a mathematical integer to 32 bits. *)
Definition wrap32 (z : Z) : Z := (z + 2147483648) mod 4294967296 - 2147483648.

(** [a - b] on [int32]. *)
Definition sub32 (a b : Z) : Z := wrap32 (a - b).

(** [a % b] on [int32]: the remainder of the truncated division, with the
    sign of [a]; a zero divisor is a run-time panic ([None]). *)
Definition rem32 (a b : Z) : option Z :=
  if b =? 0 then None else Some (wrap32 (Z.rem a b)).

(** [int32(n)] for an [int] [n]. *)
Definition of_int (n : Z) : Z := wrap32 n.

End Int32.

Import Int32.

(** ** Messages *)

(** [sarama.ConsumerMessage]: the fields the relay reads. *)
Record ConsumerMessage := {
  cm_Key : list Byte.byte;
  cm_Value : list Byte.byte;
  cm_Topic : string;
  cm_Partition : Z;
  cm_Offset : Z
}.

(** [sarama.ProducerMessage]: the fields the relay writes.  [Partition] is
    an [int32] field, so a literal that does not set it leaves it at zero. *)
Record ProducerMessage := {
  Topic : string;
  Key : option (list Byte.byte);
  Value : option (list Byte.byte);
  Partition : Z
}.

(** [sarama.ProducerMessage{}] *)
Definition emptyProducerMessage : ProducerMessage :=
  {| Topic := ""; Key := None; Value := None; Partition := 0 |}.

(** The errors [PartitionMsg] builds with [fmt.Errorf], one constructor per
    call site, in the order of the source. *)
Inductive RoutingError :=
| ErrNotConfigured
| ErrValueNotSet
| ErrNegativePartition
| ErrKeyNotSet
| ErrFewerPartitions
| ErrTargetMissing
| ErrInvalidPartitioner.

(** [err.Error()] *)
Definition error_text (e : RoutingError) : string :=
  match e with
  | ErrNotConfigured => "configuration error, partitioner or topic was not set."
  | ErrValueNotSet => "value is not set"
  | ErrNegativePartition => "the source message has a negative value for its partition"
  | ErrKeyNotSet => "key is not set, we can't use the hash function for this type of messages"
  | ErrFewerPartitions => "the dest topic has less partitions than the source, this is an invalid configuration and not compatible with keep partition."
  | ErrTargetMissing => "the target partition does not exist on the destination topic"
  | ErrInvalidPartitioner => "invalid partitioner defined"
  end.

(** The taxonomy under which the errors are reported. *)
Inductive ErrorClass := ConfigurationError | ValidationError | CapacityError.

Definition error_class (e : RoutingError) : ErrorClass :=
  match e with
  | ErrNotConfigured | ErrInvalidPartitioner => ConfigurationError
  | ErrValueNotSet | ErrNegativePartition | ErrKeyNotSet => ValidationError
  | ErrFewerPartitions | ErrTargetMissing => CapacityError
  end.

(** A Go call either returns or panics. *)
Inductive go_result (A : Type) :=
| Return (a : A)
| Panic (reason : string).
Arguments Return {A} a.
Arguments Panic {A} reason.

(** The two shapes of [return] in [PartitionMsg]. *)
Definition routed (pm : ProducerMessage) : go_result (ProducerMessage * option RoutingError) :=
  Return (pm, None).
Definition failed (e : RoutingError) : go_result (ProducerMessage * option RoutingError) :=
  Return (emptyProducerMessage, Some e).

(** ** The partition router *)

(** [PartitionMsg] on a message that is there: [origmsg] is the value the
    pointer of the source points to.  The call with a [nil] pointer is in
    [PartitionMsgPtr] below. *)
Definition PartitionMsg (partitioner topic : string) (origmsg : ConsumerMessage)
    (numPartitions : Z) : go_result (ProducerMessage * option RoutingError) :=
  if (partitioner =? "")%string || (topic =? "")%string then
    failed ErrNotConfigured
  else if (Z.of_nat (List.length (cm_Value origmsg)) =? 0)%Z then
    failed ErrValueNotSet
  else if (cm_Partition origmsg <? 0)%Z then
    failed ErrNegativePartition
  else if (partitioner =? "hash")%string then
    if (Z.of_nat (List.length (cm_Key origmsg)) =? 0)%Z then
      failed ErrKeyNotSet
    else
      routed {| Topic := topic; Key := Some (cm_Key origmsg);
                Value := Some (cm_Value origmsg); Partition := 0 |}
  else if (partitioner =? "keeppartition")%string then
    if (cm_Partition origmsg >? sub32 numPartitions 1)%Z then
      failed ErrFewerPartitions
    else
      routed {| Topic := topic; Key := Some (cm_Key origmsg);
                Value := Some (cm_Value origmsg);
                Partition := cm_Partition origmsg |}
  else if (partitioner =? "modulo")%string then
    match rem32 (cm_Partition origmsg) numPartitions with
    | None => Panic "runtime error: integer divide by zero"
    | Some targetPartition =>
        if (targetPartition >? sub32 numPartitions 1)%Z then
          failed ErrTargetMissing
        else
          routed {| Topic := topic; Key := Some (cm_Key origmsg);
                    Value := Some (cm_Value origmsg);
                    Partition := targetPartition |}
    end
  else if (partitioner =? "random")%string then
    routed {| Topic := topic; Key := None;
              Value := Some (cm_Value origmsg); Partition := 0 |}
  else
    failed ErrInvalidPartitioner.

(** [PartitionMsg] with its argument [origmsg *sarama.ConsumerMessage] as a
    pointer; [None] is [nil].  The first check does not look at the message;
    the second reads [origmsg.Value] and panics on [nil]. *)
Definition PartitionMsgPtr (partitioner topic : string)
    (origmsg : option ConsumerMessage) (numPartitions : Z)
    : go_result (ProducerMessage * option RoutingError) :=
  if (partitioner =? "")%string || (topic =? "")%string then
    failed ErrNotConfigured
  else
    match origmsg with
    | None => Panic "runtime error: invalid memory address or nil pointer dereference"
    | Some m => PartitionMsg partitioner topic m numPartitions
    end.

(** The names that have a [case] in the [switch]. *)
Definition recognised (partitioner : string) : bool :=
  (partitioner =? "hash")%string || (partitioner =? "keeppartition")%string ||
  (partitioner =? "modulo")%string || (partitioner =? "random")%string.

(** The three checks that precede the [switch], as a condition on the
    arguments. *)
Definition passes_validation (partitioner topic : string) (m : ConsumerMessage) : Prop :=
  partitioner <> "" /\ topic <> "" /\ cm_Value m <> [] /\ 0 <= cm_Partition m.

(** ** Start-up: from the configuration to the handler *)

(** [strings.ToLower] on strings of ASCII bytes: the letters A to Z go to
    lower case, every other byte is kept.  On a string with bytes above 127
    Go also maps the letters outside ASCII (U+212A, the Kelvin sign, goes to
    k), which this function does not do: it is [strings.ToLower] for ASCII
    names only, and what is stated with it speaks of those. *)
Definition lower_ascii (c : ascii) : ascii :=
  let n := nat_of_ascii c in
  if ((65 <=? n) && (n <=? 90))%nat then ascii_of_nat (n + 32) else c.

Fixpoint ToLower (s : string) : string :=
  match s with
  | EmptyString => EmptyString
  | String c r => String (lower_ascii c) (ToLower r)
  end.

(** [cfg.Producer.Partitioner]: sarama's default (hash of the key, a random
    partition for a nil key) unless [main] installs the manual one, the only
    one that reads [ProducerMessage.Partition]. *)
Inductive PartitionerKind := DefaultPartitioner | ManualPartitioner.

Definition producerPartitioner (partitioner : string) : PartitionerKind :=
  if (partitioner =? "keeppartition")%string || (partitioner =? "modulo")%string
  then ManualPartitioner else DefaultPartitioner.

(** The partition a routed message names to the destination: the field
    [Partition] under the manual partitioner, nothing otherwise. *)
Definition targetPartition (partitioner : string) (pm : ProducerMessage) : option Z :=
  match producerPartitioner partitioner with
  | ManualPartitioner => Some (Partition pm)
  | DefaultPartitioner => None
  end.

(** Channels are identified by a number. *)
Definition chan := nat.

(** [type Consumer struct]; [producer] and [metrics] are handles to the
    producer's input queue and to the registry, which [ConsumeClaim] below
    reaches through its events. *)
Record Consumer := {
  ready : chan;
  numPartitions : Z;
  producerTopic : string;
  partitioner : string
}.

(** [main] either gets as far as the handler or ends in [log.Fatal]. *)
Inductive startup (A : Type) :=
| Started (a : A)
| Fatal (msg : string).
Arguments Started {A} a.
Arguments Fatal {A} msg.

(** The handler of lines 141-148 as [main] builds it in a run in which the
    client, the producer and the consumer group open: the policy name of
    line 114, the partitioner of lines 115-117, the count of lines 119-124.
    [rawPartitioner] is [viper.GetString("producer.partitioner")], [topic]
    is [viper.GetString("producer.kafka.topic")], [part] is what
    [client.Partitions] returns ([None] for an error), [readyChan] the
    channel made for the field [ready].  Of the exits on the way this has
    the one of line 121; [startUp] below has all of them. *)
Definition newConsumer (rawPartitioner topic : string) (part : option (list Z))
    (readyChan : chan) : startup (PartitionerKind * Consumer) :=
  let partitioner := ToLower rawPartitioner in
  let kind := producerPartitioner partitioner in
  match part with
  | None => Fatal "could not get partitions for target topic"
  | Some part =>
      let numPartitions := Z.of_nat (List.length part) in
      Started (kind, {| ready := readyChan;
                        numPartitions := of_int numPartitions;
                        producerTopic := topic;
                        partitioner := partitioner |})
  end.

(** Lines 108-148 of [main], with every exit on the way, in the order of
    the source: [sarama.NewClient] fails (line 110, [client] is the error),
    [client.Partitions] fails (line 121), the producer does not open (line
    128), the consumer group does not open (line 138).  The texts leave out
    the error that [log.Fatalf] appends.  [lower] stands for
    [strings.ToLower], of which no more is assumed than that it is a
    function on strings. *)
Definition startUp (lower : string -> string) (client : option string)
    (rawPartitioner topic : string) (part : option (list Z))
    (producer group : bool) (readyChan : chan)
    : startup (PartitionerKind * Consumer) :=
  match client with
  | Some err => Fatal err
  | None =>
      let partitioner := lower rawPartitioner in
      let kind := producerPartitioner partitioner in
      match part with
      | None => Fatal "could not get partitions for target topic"
      | Some part =>
          let numPartitions := Z.of_nat (List.length part) in
          if negb producer then Fatal "could not open kafka connection"
          else if negb group then
            Fatal "could not start consumer group from client"
          else
            Started (kind, {| ready := readyChan;
                              numPartitions := of_int numPartitions;
                              producerTopic := topic;
                              partitioner := partitioner |})
      end
  end.

(** ** The claim loop *)

(** What [ConsumeClaim] does to the outside, in order. *)
Inductive ClaimEvent :=
| Logged (e : RoutingError)
| Handoff (pm : ProducerMessage)
| Metered
| Marked (m : ConsumerMessage).

(** How [ConsumeClaim] ends: it returns, it panics, or it stays blocked on
    the send to the producer's input. *)
Inductive ClaimEnd :=
| ClaimReturned (err : option RoutingError)
| ClaimPanicked (reason : string)
| ClaimBlocked.

(** [msgs] is what [claim.Messages()] delivers until it is closed; [room] is
    the number of sends the producer's input will still take. *)
Fixpoint ConsumeClaim (consumer : Consumer) (room : nat) (msgs : list ConsumerMessage)
    {struct msgs} : list ClaimEvent * ClaimEnd :=
  match msgs with
  | [] => ([], ClaimReturned None)
  | message :: rest =>
      match PartitionMsg (partitioner consumer) (producerTopic consumer) message
                         (numPartitions consumer) with
      | Panic reason => ([], ClaimPanicked reason)
      | Return (_, Some err) => ([Logged err], ClaimReturned (Some err))
      | Return (msg, None) =>
          match room with
          | O => ([], ClaimBlocked)
          | S room' =>
              let (events, e) := ConsumeClaim consumer room' rest in
              (Handoff msg :: Metered :: Marked message :: events, e)
          end
      end
  end.

(** The call of [PartitionMsg] in the loop. *)
Definition route (consumer : Consumer) (m : ConsumerMessage) :=
  PartitionMsg (partitioner consumer) (producerTopic consumer) m
               (numPartitions consumer).

(** ** Sessions and the ready channel *)

(** The store of channels: [false] for an open channel, [true] for a closed
    one; a channel that was never made is absent. *)
Definition make_chan (chans : gmap chan bool) : chan * gmap chan bool :=
  let c := fresh (dom chans) in (c, <[c := false]> chans).

(** [close(c)] *)
Definition close_chan (c : chan) (chans : gmap chan bool) : go_result (gmap chan bool) :=
  match chans !! c with
  | Some false => Return (<[c := true]> chans)
  | Some true => Panic "close of closed channel"
  | None => Panic "close of nil channel"
  end.

(** [Consumer.Setup]; the error it returns is always [nil]. *)
Definition Setup (consumer : Consumer) (chans : gmap chan bool) : go_result (gmap chan bool) :=
  close_chan (ready consumer) chans.

(** One call of [consumerGroup.Consume], as the handler and the loop around
    it see it.  A session runs [Setup] at its beginning; [Consume] returns
    [nil] when the session is over, or an error, which may come before the
    session exists. *)
Inductive Session :=
| SessionEnded (cancelled : bool)
| SessionFailed (setup_ran : bool).

Definition runs_setup (s : Session) : bool :=
  match s with
  | SessionEnded _ => true
  | SessionFailed setup_ran => setup_ran
  end.

Inductive LoopEnd :=
| LoopReturned
| LoopPanicked (reason : string)
| LoopRunning.

Definition set_ready (consumer : Consumer) (c : chan) : Consumer :=
  {| ready := c;
     numPartitions := numPartitions consumer;
     producerTopic := producerTopic consumer;
     partitioner := partitioner consumer |}.

(** The goroutine of lines 151-166.  The result lists the channels closed by
    [Setup], one entry per invocation, and says how the loop stands when
    the sessions given are used up. *)
Fixpoint consumeLoop (sessions : list Session) (consumer : Consumer)
    (chans : gmap chan bool) : list chan * LoopEnd :=
  match sessions with
  | [] => ([], LoopRunning)
  | s :: rest =>
      let after_setup :=
        if runs_setup s then Setup consumer chans else Return chans in
      match after_setup with
      | Panic reason => ([], LoopPanicked reason)
      | Return chans' =>
          let fired := if runs_setup s then [ready consumer] else [] in
          match s with
          | SessionFailed _ => (fired, LoopPanicked "Error from consumer")
          | SessionEnded true => (fired, LoopReturned)
          | SessionEnded false =>
              let (c, chans'') := make_chan chans' in
              let (later, e) := consumeLoop rest (set_ready consumer c) chans'' in
              ((fired ++ later)%list, e)
          end
      end
  end.

(** The loop ended in a panic of [close]. *)
Definition close_panic (e : LoopEnd) : Prop :=
  e = LoopPanicked "close of closed channel" \/
  e = LoopPanicked "close of nil channel".

(** The store when the goroutine starts: the one channel made at line 142. *)
Definition initial_chans (c : chan) : gmap chan bool := {[ c := false ]}.

(** The same goroutine, seen through the store: the result lists, one
    entry per invocation of [Setup], the store as [Setup] found it and the
    store as [Setup] left it. *)
Fixpoint sessionSteps (sessions : list Session) (consumer : Consumer)
    (chans : gmap chan bool)
    : list (gmap chan bool * gmap chan bool) * LoopEnd :=
  match sessions with
  | [] => ([], LoopRunning)
  | s :: rest =>
      let after_setup :=
        if runs_setup s then Setup consumer chans else Return chans in
      match after_setup with
      | Panic reason => ([], LoopPanicked reason)
      | Return chans' =>
          let step := if runs_setup s then [(chans, chans')] else [] in
          match s with
          | SessionFailed _ => (step, LoopPanicked "Error from consumer")
          | SessionEnded true => (step, LoopReturned)
          | SessionEnded false =>
              let (c, chans'') := make_chan chans' in
              let (later, e) := sessionSteps rest (set_ready consumer c) chans'' in
              ((step ++ later)%list, e)
          end
      end
  end.

(** An invocation of [Setup] fires the channel [c]: it found [c] open and
    left it closed, which releases whoever receives from [c]. *)
Definition fires (c : chan) (step : gmap chan bool * gmap chan bool) : bool :=
  bool_decide (step.1 !! c = Some false) && bool_decide (step.2 !! c = Some true).

(** What an invocation of [Setup] does when the channel [g] is closed
    already: it leaves [g] closed and fires another channel. *)
Definition passes_by (g : chan) (step : gmap chan bool * gmap chan bool) : Prop :=
  fires g step = false /\
  step.1 !! g = Some true /\ step.2 !! g = Some true /\
  exists c, c <> g /\ fires c step = true.

(** [Setup] is invoked at all: there is a first session and it gets as far
    as [Setup]. *)
Definition setup_invoked (sessions : list Session) : bool :=
  match sessions with
  | [] => false
  | s :: _ => runs_setup s
  end.

(** ** The close loop *)

(** [time.Duration] counts nanoseconds. *)
Definition Minute : Z := 60 * 1000000000.
Definition closeTimeout : Z := 5 * Minute.

Record Exited := {
  printed : list string;
  status : Z;
  exit_time : Z
}.

Definition say (line : string) (e : Exited) : Exited :=
  {| printed := line :: printed e; status := status e; exit_time := exit_time e |}.

(** Lines 212-225.  Time is measured from the first [select].  [sends] holds,
    in the order of arrival, the time at which each close sequence sends its
    tag on [c1] and the tag; a sequence that never gets there is not in the
    list.  Each [select] starts a new timer: at time [now] it takes the next
    tag if that is there before [now + closeTimeout], and the timer's case
    if the timer is first; [tie] chooses when both are ready at once. *)
Fixpoint closeLoop (tie : Z -> bool) (now closecnt : Z) (sends : list (Z * string))
    : Exited :=
  let timedOut :=
    {| printed := ["could not stop consumer or producer within the defined timeout of 5 minutes"];
       status := 1; exit_time := now + closeTimeout |} in
  match sends with
  | [] => timedOut
  | (t, res) :: rest =>
      let arrival := Z.max now t in
      if (arrival <? now + closeTimeout) ||
         ((arrival =? now + closeTimeout) && tie closecnt) then
        let closecnt := closecnt + 1 in
        say ("Successfully closed " ++ res)%string
          (if closecnt =? 2 then
             {| printed := []; status := 0; exit_time := arrival |}
           else closeLoop tie arrival closecnt rest)
      else timedOut
  end.

(** The loop as [main] enters it: [var closecnt int]. *)
Definition awaitClose (tie : Z -> bool) (sends : list (Z * string)) : Exited :=
  closeLoop tie 0 0 sends.

(** ** What a run of the claim loop did *)

(** The messages marked, the messages handed to the producer and the ticks
    of the meter [messages.processed], each in the order of the events. *)
Definition marked (events : list ClaimEvent) : list ConsumerMessage :=
  omap (fun ev => match ev with Marked m => Some m | _ => None end) events.

Definition handed_off (events : list ClaimEvent) : list ProducerMessage :=
  omap (fun ev => match ev with Handoff pm => Some pm | _ => None end) events.

Definition metered (events : list ClaimEvent) : nat :=
  List.length (omap (fun ev => match ev with Metered => Some tt | _ => None end) events).

(** The three events of one pass through the body of the loop. *)
Definition relayed (m : ConsumerMessage) (pm : ProducerMessage) : list ClaimEvent :=
  [Handoff pm; Metered; Marked m].

(** [PartitionMsg] routes [m] to [pm] for this handler. *)
Definition routes_to (consumer : Consumer) (m : ConsumerMessage) (pm : ProducerMessage) : Prop :=
  route consumer m = routed pm.

(** ** Compression *)

(** [sarama.CompressionCodec], the values [getCompressionCodec] returns. *)
Inductive CompressionCodec :=
| CompressionNone
| CompressionGZIP
| CompressionSnappy
| CompressionLZ4.

Definition getCompressionCodec (comp : string) : CompressionCodec :=
  if (comp =? "snappy")%string then CompressionSnappy
  else if (comp =? "gzip")%string then CompressionGZIP
  else if (comp =? "lz4")%string then CompressionLZ4
  else CompressionNone.

(** ** The run loop *)

(** The case a [select] of the run loop takes (lines 183-194). *)
Inductive RunEvent :=
| OsSignal
| CtxDone
| ConsumerGroupError (e : string)
| ProducerError (e : string).

(** [metrics.GetOrRegisterMeter(name, registry).Mark(1)]: the registry maps
    the name of a meter to its count; a meter that is not there is
    registered at zero first. *)
Definition markMeter (name : string) (registry : gmap string Z) : gmap string Z :=
  <[name := default 0 (registry !! name) + 1]> registry.

(** The loop [runloop:] over the cases its [select]s take, in order.  The
    result holds the lines logged, the registry, and what was left unread
    when the loop was left ([None] while it is still running). *)
Fixpoint runloop (events : list RunEvent) (registry : gmap string Z)
    : list string * gmap string Z * option (list RunEvent) :=
  match events with
  | [] => ([], registry, None)
  | OsSignal :: rest => ([], registry, Some rest)
  | CtxDone :: rest => ([], registry, Some rest)
  | ConsumerGroupError e :: rest =>
      let '(log, registry', unread) :=
        runloop rest (markMeter "consumer.errors" registry) in
      (e :: log, registry', unread)
  | ProducerError e :: rest =>
      let '(log, registry', unread) :=
        runloop rest (markMeter "producer.errors" registry) in
      (e :: log, registry', unread)
  end.

(** The events that are errors of the consumer group, of the producer, and
    the events up to the first that leaves the loop. *)
Definition consumer_errors (events : list RunEvent) : list string :=
  omap (fun ev => match ev with ConsumerGroupError e => Some e | _ => None end) events.

Definition producer_errors (events : list RunEvent) : list string :=
  omap (fun ev => match ev with ProducerError e => Some e | _ => None end) events.

(** The lines [log.Println(e)] writes for the events. *)
Definition logged_lines (events : list RunEvent) : list string :=
  omap (fun ev => match ev with
                  | ConsumerGroupError e | ProducerError e => Some e
                  | _ => None
                  end) events.

Definition leaves_loop (ev : RunEvent) : bool :=
  match ev with
  | OsSignal | CtxDone => true
  | _ => false
  end.

Fixpoint before_leaving (events : list RunEvent) : list RunEvent :=
  match events with
  | [] => []
  | ev :: rest => if leaves_loop ev then [] else ev :: before_leaving rest
  end.

(** ** Sample inputs *)

(** A message with key [k], value [v], at offset 7 of partition [p]. *)
Definition message_at (p : Z) : ConsumerMessage :=
  {| cm_Key := [Byte.x6b]; cm_Value := [Byte.x76]; cm_Topic := "src";
     cm_Partition := p; cm_Offset := 7 |}.

(** A message whose value is empty (a tombstone of a compacted topic). *)
Definition tombstone : ConsumerMessage :=
  {| cm_Key := [Byte.x6b]; cm_Value := []; cm_Topic := "src";
     cm_Partition := 0; cm_Offset := 8 |}.

(** A message without a key. *)
Definition keyless : ConsumerMessage :=
  {| cm_Key := []; cm_Value := [Byte.x76]; cm_Topic := "src";
     cm_Partition := 1; cm_Offset := 9 |}.

(** A handler that relays to two partitions of [dst] under [modulo]. *)
Definition modulo_relay : Consumer :=
  {| ready := 0%nat; numPartitions := 2; producerTopic := "dst";
     partitioner := "modulo" |}.

(** * Properties *)

(** ** Machine integers *)

Section Int32Facts.

Lemma wrap32_id z : in_int32 z -> wrap32 z = z.
Proof.
  unfold in_int32, min_int32, max_int32, wrap32. intros H.
  rewrite Z.mod_small by lia. lia.
Qed.

Lemma wrap32_range z : in_int32 (wrap32 z).
Proof.
  unfold in_int32, min_int32, max_int32, wrap32.
  pose proof (Z.mod_pos_bound (z + 2147483648) 4294967296 ltac:(lia)). lia.
Qed.

Lemma sub32_one n : in_int32 n -> min_int32 < n -> sub32 n 1 = n - 1.
Proof.
  unfold sub32. intros H1 H2. apply wrap32_id.
  unfold in_int32, min_int32, max_int32 in *. lia.
Qed.

(** At the least [int32] the subtraction wraps to the greatest. *)
Lemma sub32_one_min : sub32 min_int32 1 = max_int32.
Proof. reflexivity. Qed.

Lemma rem32_pos a b :
  0 <= a -> 0 < b -> in_int32 b -> rem32 a b = Some (a mod b).
Proof.
  intros Ha Hb Hr. unfold rem32.
  destruct (Z.eqb_spec b 0) as [->|_]; [lia|].
  rewrite Z.rem_mod_nonneg by lia.
  rewrite wrap32_id; [reflexivity|].
  pose proof (Z.mod_pos_bound a b Hb).
  unfold in_int32, min_int32, max_int32 in *. lia.
Qed.

Lemma rem32_zero a : rem32 a 0 = None.
Proof. reflexivity. Qed.

End Int32Facts.

(** ** The router *)

Lemma len_zero {A} (l : list A) :
  (Z.of_nat (List.length l) =? 0) = match l with [] => true | _ => false end.
Proof. destruct l; [reflexivity|]. simpl List.length. apply Z.eqb_neq. lia. Qed.

Lemma len_nonzero {A} (l : list A) :
  l <> [] -> (Z.of_nat (List.length l) =? 0) = false.
Proof. intros H. rewrite len_zero. destruct l; congruence. Qed.

(** Past the three checks, [PartitionMsg] is its [switch]. *)
Ltac pass_checks H :=
  let Hp := fresh "Hp" in
  let Ht := fresh "Ht" in
  let Hv := fresh "Hv" in
  let Hn := fresh "Hn" in
  destruct H as (Hp & Ht & Hv & Hn);
  unfold PartitionMsg;
  rewrite (proj2 (String.eqb_neq _ _) Hp), (proj2 (String.eqb_neq _ _) Ht),
    (len_nonzero _ Hv), (proj2 (Z.ltb_ge _ _) Hn);
  cbn [orb].

Lemma routed_inj pm pm' : routed pm = routed pm' -> pm = pm'.
Proof. unfold routed. congruence. Qed.

Lemma routed_not_failed pm e : routed pm <> failed e.
Proof. unfold routed, failed. congruence. Qed.

(** Under [modulo] a validated message and a positive partition count give
    the remainder as the target. *)
Lemma modulo_switch topic m N :
  passes_validation "modulo" topic m -> in_int32 N -> 0 < N ->
  PartitionMsg "modulo" topic m N =
    routed {| Topic := topic; Key := Some (cm_Key m);
              Value := Some (cm_Value m);
              Partition := cm_Partition m mod N |}.
Proof.
  intros H HN Hpos. pass_checks H. cbn.
  rewrite rem32_pos by assumption.
  rewrite sub32_one by (unfold in_int32, min_int32 in *; lia).
  pose proof (Z.mod_pos_bound (cm_Partition m) N Hpos).
  destruct (Z.gtb_spec (cm_Partition m mod N) (N - 1)); [lia|reflexivity].
Qed.

Lemma message_at_valid partitioner p :
  partitioner <> "" -> 0 <= p -> passes_validation partitioner "dst" (message_at p).
Proof. intros Hp Hn. repeat split; try assumption; discriminate. Qed.

(** C2 (as amended): for every message that passes the common checks
    (policy name and target topic set, value not empty, source partition
    not negative) and every partition count [N > 0], [PartitionMsg] under
    [modulo] succeeds, and the target partition is the source partition
    modulo [N], which lies in [0, N). *)
Theorem modulo_target topic m N :
  passes_validation "modulo" topic m -> in_int32 N -> 0 < N ->
  exists pm,
    PartitionMsg "modulo" topic m N = routed pm /\
    Partition pm = cm_Partition m mod N /\
    targetPartition "modulo" pm = Some (cm_Partition m mod N) /\
    0 <= Partition pm < N.
Proof.
  intros H HN Hpos. eexists. split; [apply modulo_switch; assumption|].
  cbn. repeat split; try reflexivity; apply Z.mod_pos_bound; assumption.
Qed.

Lemma modulo_target_witness :
  exists pm,
    PartitionMsg "modulo" "dst" (message_at 5) 3 = routed pm /\
    Partition pm = 5 mod 3 /\
    targetPartition "modulo" pm = Some (5 mod 3) /\
    0 <= Partition pm < 3.
Proof.
  apply (modulo_target "dst" (message_at 5) 3).
  - apply message_at_valid; [discriminate|lia].
  - unfold in_int32, min_int32, max_int32; lia.
  - lia.
Defined.

(** C2 (as stated) fails: a message with source partition 0 and an empty
    value, routed under [modulo] to one partition, is not routed; the check
    of the value refuses it. *)
Lemma modulo_tombstone_refused :
  0 <= cm_Partition tombstone /\ 0 < 1 /\
  PartitionMsg "modulo" "dst" tombstone 1 = failed ErrValueNotSet /\
  ~ exists pm, PartitionMsg "modulo" "dst" tombstone 1 = routed pm.
Proof.
  repeat split; try (cbn; lia).
  intros [pm H]. cbv in H. discriminate H.
Qed.

(** C3: for a message that passes the common checks, [PartitionMsg] under
    [keeppartition] fails with a capacity error exactly when the source
    partition is at least the partition count; otherwise it succeeds and
    the target partition is the source partition.  The partition count is
    any [int32] but the least, where [numPartitions-1] wraps around. *)
Theorem keeppartition_capacity topic m N :
  passes_validation "keeppartition" topic m -> in_int32 N -> min_int32 < N ->
  ((exists e, PartitionMsg "keeppartition" topic m N = failed e /\
              error_class e = CapacityError) <-> N <= cm_Partition m) /\
  (N <= cm_Partition m ->
     PartitionMsg "keeppartition" topic m N = failed ErrFewerPartitions) /\
  (cm_Partition m < N ->
     let pm := {| Topic := topic; Key := Some (cm_Key m);
                  Value := Some (cm_Value m); Partition := cm_Partition m |} in
     PartitionMsg "keeppartition" topic m N = routed pm /\
     targetPartition "keeppartition" pm = Some (cm_Partition m)).
Proof.
  intros H HN Hmin.
  assert (Hs : PartitionMsg "keeppartition" topic m N =
    if cm_Partition m >? N - 1 then failed ErrFewerPartitions
    else routed {| Topic := topic; Key := Some (cm_Key m);
                   Value := Some (cm_Value m); Partition := cm_Partition m |}).
  { pass_checks H. cbn. rewrite sub32_one by assumption. reflexivity. }
  rewrite Hs. destruct (Z.gtb_spec (cm_Partition m) (N - 1)) as [Hgt|Hle].
  - split; [|split].
    + split; [lia|]. intros _. exists ErrFewerPartitions. split; reflexivity.
    + reflexivity.
    + lia.
  - split; [|split].
    + split; [|lia]. intros (e & He & _).
      exfalso. exact (routed_not_failed _ _ He).
    + lia.
    + intros _. split; reflexivity.
Qed.

Lemma keeppartition_capacity_witness :
  ((exists e, PartitionMsg "keeppartition" "dst" (message_at 2) 4 = failed e /\
              error_class e = CapacityError) <-> 4 <= cm_Partition (message_at 2)) /\
  (4 <= cm_Partition (message_at 2) ->
     PartitionMsg "keeppartition" "dst" (message_at 2) 4 = failed ErrFewerPartitions) /\
  (cm_Partition (message_at 2) < 4 ->
     let pm := {| Topic := "dst"; Key := Some (cm_Key (message_at 2));
                  Value := Some (cm_Value (message_at 2));
                  Partition := cm_Partition (message_at 2) |} in
     PartitionMsg "keeppartition" "dst" (message_at 2) 4 = routed pm /\
     targetPartition "keeppartition" pm = Some (cm_Partition (message_at 2))).
Proof.
  apply (keeppartition_capacity "dst" (message_at 2) 4).
  - apply message_at_valid; [discriminate|lia].
  - unfold in_int32, min_int32, max_int32; lia.
  - unfold min_int32; lia.
Defined.

(** C6: for a message that passes the common checks, [PartitionMsg] under
    [hash] fails with a validation error exactly when the key is empty; when
    it succeeds the result carries the key and the value, its [Partition]
    field is left unset and the producer does not read it: the destination
    chooses the partition. *)
Theorem hash_requires_key topic m N :
  passes_validation "hash" topic m ->
  ((exists e, PartitionMsg "hash" topic m N = failed e /\
              error_class e = ValidationError) <-> cm_Key m = []) /\
  (cm_Key m = [] -> PartitionMsg "hash" topic m N = failed ErrKeyNotSet) /\
  (cm_Key m <> [] ->
     exists pm,
       PartitionMsg "hash" topic m N = routed pm /\
       Topic pm = topic /\
       Key pm = Some (cm_Key m) /\ Value pm = Some (cm_Value m) /\
       Partition pm = Partition emptyProducerMessage /\
       targetPartition "hash" pm = None).
Proof.
  intros H.
  assert (Hs : PartitionMsg "hash" topic m N =
    match cm_Key m with
    | [] => failed ErrKeyNotSet
    | _ => routed {| Topic := topic; Key := Some (cm_Key m);
                     Value := Some (cm_Value m); Partition := 0 |}
    end).
  { pass_checks H. cbn. rewrite len_zero. destruct (cm_Key m); reflexivity. }
  rewrite Hs. destruct (cm_Key m) as [|b k] eqn:Hk.
  - split; [|split].
    + split; [reflexivity|]. intros _. exists ErrKeyNotSet. split; reflexivity.
    + reflexivity.
    + congruence.
  - split; [|split].
    + split; [|discriminate]. intros (e & He & _).
      exfalso. exact (routed_not_failed _ _ He).
    + discriminate.
    + intros _. eexists. split; [reflexivity|]. cbn. repeat split.
Qed.

Lemma hash_requires_key_witness :
  ((exists e, PartitionMsg "hash" "dst" keyless 4 = failed e /\
              error_class e = ValidationError) <-> cm_Key keyless = []) /\
  (cm_Key keyless = [] -> PartitionMsg "hash" "dst" keyless 4 = failed ErrKeyNotSet) /\
  (cm_Key keyless <> [] ->
     exists pm,
       PartitionMsg "hash" "dst" keyless 4 = routed pm /\
       Topic pm = "dst" /\
       Key pm = Some (cm_Key keyless) /\ Value pm = Some (cm_Value keyless) /\
       Partition pm = Partition emptyProducerMessage /\
       targetPartition "hash" pm = None).
Proof.
  apply (hash_requires_key "dst" keyless 4).
  repeat split; discriminate.
Defined.

(** C7: whatever the policy, the message and the partition count,
    [PartitionMsg] fails when the policy name or the target topic is empty
    (a configuration error), when the value is empty (a validation error)
    or when the source partition is negative (a validation error); the
    three checks come before the policy is looked at and in this order, so
    the first that applies decides the error. *)
Theorem checks_before_dispatch partitioner topic m N :
  (partitioner = "" \/ topic = "" ->
     PartitionMsg partitioner topic m N = failed ErrNotConfigured) /\
  (partitioner <> "" -> topic <> "" -> cm_Value m = [] ->
     PartitionMsg partitioner topic m N = failed ErrValueNotSet) /\
  (partitioner <> "" -> topic <> "" -> cm_Value m <> [] -> cm_Partition m < 0 ->
     PartitionMsg partitioner topic m N = failed ErrNegativePartition) /\
  (partitioner = "" \/ topic = "" \/ cm_Value m = [] \/ cm_Partition m < 0 ->
     exists e, PartitionMsg partitioner topic m N = failed e /\
               In e [ErrNotConfigured; ErrValueNotSet; ErrNegativePartition]) /\
  error_class ErrNotConfigured = ConfigurationError /\
  error_class ErrValueNotSet = ValidationError /\
  error_class ErrNegativePartition = ValidationError.
Proof.
  assert (H1 : partitioner = "" \/ topic = "" ->
               PartitionMsg partitioner topic m N = failed ErrNotConfigured).
  { intros [->| ->]; unfold PartitionMsg.
    - reflexivity.
    - rewrite String.eqb_refl, orb_true_r. reflexivity. }
  assert (H2 : partitioner <> "" -> topic <> "" -> cm_Value m = [] ->
               PartitionMsg partitioner topic m N = failed ErrValueNotSet).
  { intros Hp Ht Hv. unfold PartitionMsg.
    rewrite (proj2 (String.eqb_neq _ _) Hp), (proj2 (String.eqb_neq _ _) Ht), Hv.
    reflexivity. }
  assert (H3 : partitioner <> "" -> topic <> "" -> cm_Value m <> [] ->
               cm_Partition m < 0 ->
               PartitionMsg partitioner topic m N = failed ErrNegativePartition).
  { intros Hp Ht Hv Hn. unfold PartitionMsg.
    rewrite (proj2 (String.eqb_neq _ _) Hp), (proj2 (String.eqb_neq _ _) Ht),
      (len_nonzero _ Hv), (proj2 (Z.ltb_lt _ _) Hn).
    reflexivity. }
  repeat split; try assumption.
  intros Hany.
  destruct (String.eqb_spec partitioner "") as [Hp|Hp];
    [exists ErrNotConfigured; split; [auto|cbn; auto]|].
  destruct (String.eqb_spec topic "") as [Ht|Ht];
    [exists ErrNotConfigured; split; [auto|cbn; auto]|].
  destruct (cm_Value m) as [|b v] eqn:Hv;
    [exists ErrValueNotSet; split; [auto|cbn; auto]|].
  exists ErrNegativePartition. split; [|cbn; auto].
  apply H3; try assumption; [discriminate|].
  destruct Hany as [?|[?|[?|?]]]; congruence || assumption.
Qed.

(** C8: [PartitionMsg] does not change the bytes of a message: whenever it
    succeeds, under any policy, the value of the result is the value of the
    source message, and the key of the result, when there is one (as there
    is under [hash], [keeppartition] and [modulo]), is the key of the source
    message. *)
Theorem bytes_unchanged partitioner topic m N pm :
  PartitionMsg partitioner topic m N = routed pm ->
  Value pm = Some (cm_Value m) /\
  (forall k, Key pm = Some k -> k = cm_Key m) /\
  (In partitioner ["hash"; "keeppartition"; "modulo"] -> Key pm = Some (cm_Key m)).
Proof.
  unfold PartitionMsg. intros H.
  repeat match type of H with
  | (if ?c then _ else _) = _ => destruct c eqn:?
  | match ?c with _ => _ end = _ => destruct c eqn:?
  end;
  try (exfalso; exact (routed_not_failed _ _ (eq_sym H)));
  try discriminate H;
  apply routed_inj in H; subst pm; cbn;
  (split; [reflexivity|split; [congruence|]]);
  try (intros _; reflexivity).
  intros [<-|[<-|[<-|[]]]]; discriminate.
Qed.

Lemma bytes_unchanged_witness :
  let pm := {| Topic := "dst"; Key := Some [Byte.x6b];
               Value := Some [Byte.x76]; Partition := 1 |} in
  Value pm = Some (cm_Value (message_at 3)) /\
  (forall k, Key pm = Some k -> k = cm_Key (message_at 3)) /\
  (In "modulo" ["hash"; "keeppartition"; "modulo"] ->
     Key pm = Some (cm_Key (message_at 3))).
Proof.
  apply (bytes_unchanged "modulo" "dst" (message_at 3) 2). reflexivity.
Defined.

(** With a positive partition count the last error of the [modulo] case
    cannot be the result, whatever the other arguments. *)
Lemma target_missing_unreachable partitioner topic m N :
  in_int32 N -> 0 < N ->
  PartitionMsg partitioner topic m N <> failed ErrTargetMissing.
Proof.
  intros HN Hpos. unfold PartitionMsg.
  destruct ((partitioner =? "")%string || (topic =? "")%string); [discriminate|].
  destruct (Z.of_nat (List.length (cm_Value m)) =? 0); [discriminate|].
  destruct (Z.ltb_spec (cm_Partition m) 0) as [|Hn]; [discriminate|].
  destruct (partitioner =? "hash")%string.
  { destruct (Z.of_nat (List.length (cm_Key m)) =? 0); discriminate. }
  destruct (partitioner =? "keeppartition")%string.
  { destruct (cm_Partition m >? sub32 N 1); discriminate. }
  destruct (partitioner =? "modulo")%string.
  { rewrite rem32_pos by assumption.
    rewrite sub32_one by (unfold in_int32, min_int32 in *; lia).
    pose proof (Z.mod_pos_bound (cm_Partition m) N Hpos).
    destruct (Z.gtb_spec (cm_Partition m mod N) (N - 1)); [lia|discriminate]. }
  destruct (partitioner =? "random")%string; discriminate.
Qed.

(** C10: under [modulo], a message that has passed the checks and a
    partition count of zero make [PartitionMsg] panic on the remainder, for
    the count is not checked, neither in [PartitionMsg] nor on the way from
    [client.Partitions] to the handler; with a positive count the error
    "the target partition does not exist on the destination topic" cannot
    occur and the call succeeds. *)
Theorem modulo_partition_count topic m :
  passes_validation "modulo" topic m ->
  PartitionMsg "modulo" topic m 0 = Panic "runtime error: integer divide by zero" /\
  (forall raw c, exists kind consumer,
     newConsumer raw topic (Some []) c = Started (kind, consumer) /\
     numPartitions consumer = 0) /\
  (forall N, in_int32 N -> 0 < N ->
     PartitionMsg "modulo" topic m N <> failed ErrTargetMissing /\
     exists pm, PartitionMsg "modulo" topic m N = routed pm).
Proof.
  intros H. split; [|split].
  - pass_checks H. reflexivity.
  - intros raw c. do 2 eexists. split; reflexivity.
  - intros N HN Hpos. split.
    + apply target_missing_unreachable; assumption.
    + eexists. apply modulo_switch; assumption.
Qed.

Lemma modulo_partition_count_witness :
  PartitionMsg "modulo" "dst" (message_at 5) 0 =
    Panic "runtime error: integer divide by zero" /\
  (forall raw c, exists kind consumer,
     newConsumer raw "dst" (Some []) c = Started (kind, consumer) /\
     numPartitions consumer = 0) /\
  (forall N, in_int32 N -> 0 < N ->
     PartitionMsg "modulo" "dst" (message_at 5) N <> failed ErrTargetMissing /\
     exists pm, PartitionMsg "modulo" "dst" (message_at 5) N = routed pm).
Proof.
  apply (modulo_partition_count "dst" (message_at 5)).
  apply message_at_valid; [discriminate|lia].
Defined.

(** ** Start-up *)

Lemma ConsumeClaim_cons consumer room message rest :
  ConsumeClaim consumer room (message :: rest) =
    match PartitionMsg (partitioner consumer) (producerTopic consumer) message
                       (numPartitions consumer) with
    | Panic reason => ([], ClaimPanicked reason)
    | Return (_, Some err) => ([Logged err], ClaimReturned (Some err))
    | Return (msg, None) =>
        match room with
        | O => ([], ClaimBlocked)
        | S room' =>
            let (events, e) := ConsumeClaim consumer room' rest in
            (Handoff msg :: Metered :: Marked message :: events, e)
        end
    end.
Proof. reflexivity. Qed.

Lemma unrecognised_default partitioner topic m N :
  passes_validation partitioner topic m -> recognised partitioner = false ->
  PartitionMsg partitioner topic m N = failed ErrInvalidPartitioner.
Proof.
  intros H Hr. unfold recognised in Hr.
  apply orb_false_elim in Hr as [Hr Hrandom].
  apply orb_false_elim in Hr as [Hr Hmodulo].
  apply orb_false_elim in Hr as [Hhash Hkeep].
  pass_checks H. rewrite Hhash, Hkeep, Hmodulo, Hrandom. reflexivity.
Qed.

(** Whether and how start-up exits does not depend on the policy name. *)
Lemma startUp_fatal_any_name lower client raw raw' topic part producer group c msg :
  startUp lower client raw topic part producer group c = Fatal msg ->
  startUp lower client raw' topic part producer group c = Fatal msg.
Proof.
  unfold startUp. destruct client, part, producer, group; cbn; congruence.
Qed.

(** When the client, the producer and the consumer group open, start-up is
    the handler of [newConsumer]. *)
Lemma startUp_newConsumer raw topic part c :
  startUp ToLower None raw topic part true true c = newConsumer raw topic part c.
Proof. unfold startUp, newConsumer. destruct part; reflexivity. Qed.

(** C4 (as amended): start-up does not reject a policy name.  Whether
    [main] gets as far as the handler or exits on the way (the client, the
    partitions of the target topic, the producer or the consumer group
    cannot be had) does not depend on the name: [main] only takes it to
    lower case, chooses the partitioner of the producer by it and stores it
    in the handler.  A name that, in lower case, has no case in the [switch]
    is found per message: for every message that passes the common checks
    [PartitionMsg] fails with "invalid partitioner defined", a
    configuration error, and the claim loop returns that error.  The
    statement holds for every lower-casing function, so for
    [strings.ToLower]. *)
Theorem unknown_policy_found_per_message
    lower client raw topic part producer group c kind consumer m room rest :
  startUp lower client raw topic part producer group c = Started (kind, consumer) ->
  recognised (lower raw) = false ->
  passes_validation (lower raw) topic m ->
  (forall raw', exists kind' consumer',
     startUp lower client raw' topic part producer group c =
       Started (kind', consumer') /\
     partitioner consumer' = lower raw') /\
  (forall client' part' producer' group' raw' msg,
     startUp lower client' raw topic part' producer' group' c = Fatal msg ->
     startUp lower client' raw' topic part' producer' group' c = Fatal msg) /\
  kind = DefaultPartitioner /\
  partitioner consumer = lower raw /\
  PartitionMsg (partitioner consumer) (producerTopic consumer) m
               (numPartitions consumer) = failed ErrInvalidPartitioner /\
  error_class ErrInvalidPartitioner = ConfigurationError /\
  ConsumeClaim consumer room (m :: rest) =
    ([Logged ErrInvalidPartitioner], ClaimReturned (Some ErrInvalidPartitioner)).
Proof.
  intros Hstart Hr H.
  assert (Hk : producerPartitioner (lower raw) = DefaultPartitioner).
  { unfold recognised in Hr. unfold producerPartitioner.
    apply orb_false_elim in Hr as [Hr _].
    apply orb_false_elim in Hr as [Hr Hmodulo].
    apply orb_false_elim in Hr as [_ Hkeep].
    rewrite Hkeep, Hmodulo. reflexivity. }
  unfold startUp in Hstart |- *.
  destruct client as [err|]; [discriminate Hstart|].
  destruct part as [ps|]; [|discriminate Hstart].
  destruct producer; [|discriminate Hstart].
  destruct group; [|discriminate Hstart].
  cbn [negb] in Hstart |- *. injection Hstart as <- <-.
  split; [intros raw'; do 2 eexists; split; reflexivity|].
  split.
  { intros client' part' producer' group' raw' msg.
    destruct client', part', producer', group'; cbn; congruence. }
  split; [exact Hk|]. split; [reflexivity|].
  cbn [partitioner producerTopic numPartitions].
  split; [apply unrecognised_default; assumption|].
  split; [reflexivity|].
  rewrite ConsumeClaim_cons. cbn [partitioner producerTopic numPartitions].
  rewrite unrecognised_default by assumption. reflexivity.
Qed.

Lemma unknown_policy_found_per_message_witness :
  let consumer := {| ready := 0%nat; numPartitions := 2; producerTopic := "dst";
                     partitioner := "roundrobin" |} in
  (forall raw', exists kind' consumer',
     startUp ToLower None raw' "dst" (Some [0; 1]) true true 0%nat =
       Started (kind', consumer') /\
     partitioner consumer' = ToLower raw') /\
  (forall client' part' producer' group' raw' msg,
     startUp ToLower client' "RoundRobin" "dst" part' producer' group' 0%nat =
       Fatal msg ->
     startUp ToLower client' raw' "dst" part' producer' group' 0%nat = Fatal msg) /\
  DefaultPartitioner = DefaultPartitioner /\
  partitioner consumer = ToLower "RoundRobin" /\
  PartitionMsg (partitioner consumer) (producerTopic consumer) (message_at 1)
               (numPartitions consumer) = failed ErrInvalidPartitioner /\
  error_class ErrInvalidPartitioner = ConfigurationError /\
  ConsumeClaim consumer 1 [message_at 1] =
    ([Logged ErrInvalidPartitioner], ClaimReturned (Some ErrInvalidPartitioner)).
Proof.
  apply (unknown_policy_found_per_message ToLower None "RoundRobin" "dst"
           (Some [0; 1]) true true 0%nat DefaultPartitioner
           {| ready := 0%nat; numPartitions := 2; producerTopic := "dst";
              partitioner := "roundrobin" |}
           (message_at 1) 1%nat []).
  - reflexivity.
  - reflexivity.
  - repeat split; discriminate.
Defined.

(** C4 (as stated) fails: with the policy name "RoundRobin", whose letters
    are ASCII, so that [ToLower] is [strings.ToLower] on it, and with the
    client, the partitions, the producer and the consumer group all there,
    start-up gets as far as the handler, and the name is refused only when
    the first message is routed. *)
Lemma unknown_policy_passes_startup :
  exists consumer,
    startUp ToLower None "RoundRobin" "dst" (Some [0; 1]) true true 0%nat =
      Started (DefaultPartitioner, consumer) /\
    partitioner consumer = "roundrobin" /\
    PartitionMsg (partitioner consumer) (producerTopic consumer) (message_at 1)
                 (numPartitions consumer) = failed ErrInvalidPartitioner.
Proof. eexists. repeat split. Qed.

(** ** The claim loop *)

(** C1: in every run of the claim loop, whatever the messages and however
    many sends the producer's input takes, a mark of a message comes right
    after the hand-off of that message as routed and the tick of the meter;
    so the events before a mark always hold the hand-off of its message,
    and no message is marked that was not handed off first. *)
Theorem mark_follows_handoff consumer msgs : forall room pre m post,
  fst (ConsumeClaim consumer room msgs) = (pre ++ Marked m :: post)%list ->
  exists pre' pm,
    pre = (pre' ++ [Handoff pm; Metered])%list /\
    route consumer m = routed pm /\
    In (Handoff pm) pre /\
    In m msgs.
Proof.
  induction msgs as [|message rest IH]; intros room pre m post Hev.
  - destruct pre; discriminate Hev.
  - rewrite ConsumeClaim_cons in Hev. fold (route consumer message) in Hev.
    destruct (route consumer message) as [[pm [err|]]|reason] eqn:Hroute;
      cbn in Hev.
    + destruct pre as [|? [|? ?]]; discriminate Hev.
    + destruct room as [|room']; cbn in Hev; [destruct pre; discriminate Hev|].
      destruct (ConsumeClaim consumer room' rest) as [events e] eqn:Hrest.
      cbn in Hev.
      destruct pre as [|e1 [|e2 [|e3 pre'']]]; cbn in Hev; try discriminate Hev.
      * injection Hev as <- <- <- _.
        exists [], pm. repeat split; cbn; auto.
      * injection Hev as <- <- <- Hev.
        destruct (IH room' pre'' m post) as (p' & pm' & -> & Hr & Hin & Hmem).
        { rewrite Hrest. exact Hev. }
        exists (Handoff pm :: Metered :: Marked message :: p'), pm'.
        repeat split; cbn; auto.
    + destruct pre; discriminate Hev.
Qed.

Lemma mark_follows_handoff_witness :
  let pm0 := {| Topic := "dst"; Key := Some [Byte.x6b];
                Value := Some [Byte.x76]; Partition := 0 |} in
  exists pre' pm,
    [Handoff pm0; Metered] = (pre' ++ [Handoff pm; Metered])%list /\
    route modulo_relay (message_at 0) = routed pm /\
    In (Handoff pm) [Handoff pm0; Metered] /\
    In (message_at 0) [message_at 0; message_at 3].
Proof.
  apply (mark_follows_handoff modulo_relay [message_at 0; message_at 3] 2%nat
           _ (message_at 0)
           [Handoff {| Topic := "dst"; Key := Some [Byte.x6b];
                       Value := Some [Byte.x76]; Partition := 1 |};
            Metered; Marked (message_at 3)]).
  reflexivity.
Defined.

(** A send that is never taken leaves the loop blocked before the mark. *)
Lemma blocked_send_marks_nothing consumer m rest pm :
  route consumer m = routed pm ->
  ConsumeClaim consumer 0 (m :: rest) = ([], ClaimBlocked).
Proof.
  intros H. rewrite ConsumeClaim_cons. fold (route consumer m). rewrite H.
  reflexivity.
Qed.

(** ** Sessions and the ready channel *)

Lemma make_chan_fresh (chans : gmap chan bool) :
  ((make_chan chans).1 ∉ dom chans) /\
  ((make_chan chans).2 !! (make_chan chans).1 = Some false) /\
  (dom chans ⊆ dom (make_chan chans).2).
Proof.
  unfold make_chan. cbn. split; [apply is_fresh|]. split.
  - apply lookup_insert_eq.
  - rewrite dom_insert_L. set_solver.
Qed.

Lemma Setup_open consumer (chans : gmap chan bool) :
  chans !! ready consumer = Some false ->
  Setup consumer chans = Return (<[ready consumer := true]> chans).
Proof. intros H. unfold Setup, close_chan. rewrite H. reflexivity. Qed.

(** When the loop starts with an open channel in [ready], the first channel
    [Setup] closes is that one, every later one was made after the start,
    none is closed twice, and no [close] panics. *)
Lemma consumeLoop_fires sessions : forall consumer (chans : gmap chan bool),
  chans !! ready consumer = Some false ->
  (fst (consumeLoop sessions consumer chans) = [] \/
   exists later,
     fst (consumeLoop sessions consumer chans) = ready consumer :: later /\
     (forall c, c ∈ later -> c ∉ dom chans) /\
     NoDup later) /\
  ~ close_panic (snd (consumeLoop sessions consumer chans)).
Proof.
  induction sessions as [|s rest IH]; intros consumer chans Hopen.
  - cbn. split; [left; reflexivity|]. intros [H|H]; discriminate H.
  - cbn [consumeLoop]. destruct s as [cancelled|setup_ran]; cbn [runs_setup].
    + rewrite (Setup_open _ _ Hopen).
      destruct cancelled.
      * cbn. split; [|intros [H|H]; discriminate H].
        right. exists []. repeat split; [set_solver|constructor].
      * pose proof (make_chan_fresh (<[ready consumer := true]> chans))
          as (Hfresh & Hnew & Hsub).
        destruct (make_chan (<[ready consumer := true]> chans)) as [c chans'']
          eqn:Hmk. cbn [fst snd] in Hfresh, Hnew, Hsub.
        specialize (IH (set_ready consumer c) chans'' Hnew).
        destruct (consumeLoop rest (set_ready consumer c) chans'')
          as [later e] eqn:Hloop.
        cbn [fst snd] in IH |- *. destruct IH as [Hfired Hend].
        split; [|exact Hend]. right. exists later. split; [reflexivity|].
        rewrite dom_insert_L in Hfresh, Hsub.
        destruct Hfired as [->|(later' & -> & Hout & Hnd)].
        -- split; [set_solver|constructor].
        -- cbn [ready set_ready] in *. split.
           ++ intros x Hx. apply elem_of_cons in Hx as [->|Hx].
              ** set_solver.
              ** specialize (Hout x Hx). set_solver.
           ++ apply NoDup_cons. split; [|exact Hnd].
              intros Hc. apply (Hout c Hc).
              apply elem_of_dom. rewrite Hnew. eauto.
    + destruct setup_ran.
      * rewrite (Setup_open _ _ Hopen). cbn.
        split; [|intros [H|H]; discriminate H].
        right. exists []. repeat split; [set_solver|constructor].
      * cbn. split; [left; reflexivity|]. intros [H|H]; discriminate H.
Qed.

(** The channels the field [ready] holds at the invocations of [Setup]
    are all different, and the first is the one [main] waits on. *)
Lemma setup_channels_distinct sessions consumer :
  let gate := ready consumer in
  let run := consumeLoop sessions consumer (initial_chans gate) in
  (fst run = [] \/
   exists later, fst run = gate :: later /\ (gate ∉ later) /\ NoDup later) /\
  NoDup (fst run) /\
  ~ close_panic (snd run).
Proof.
  intros gate run.
  destruct (consumeLoop_fires sessions consumer (initial_chans gate))
    as [Hfired Hend].
  { unfold initial_chans, gate. apply lookup_singleton_eq. }
  fold run in Hfired, Hend.
  assert (Hgate : gate ∈ dom (initial_chans gate)).
  { unfold initial_chans. rewrite dom_singleton_L. set_solver. }
  split; [|split; [|exact Hend]].
  - destruct Hfired as [H|(later & H & Hout & Hnd)]; [left; exact H|].
    right. exists later. fold gate in H. repeat split; try assumption.
    intros Hin. exact (Hout gate Hin Hgate).
  - destruct Hfired as [->|(later & -> & Hout & Hnd)]; [constructor|].
    apply NoDup_cons. split; [|exact Hnd].
    intros Hin. exact (Hout gate Hin Hgate).
Qed.

Lemma fires_spec c (step : gmap chan bool * gmap chan bool) :
  fires c step = true <-> step.1 !! c = Some false /\ step.2 !! c = Some true.
Proof.
  unfold fires. rewrite andb_true_iff, !bool_decide_eq_true. reflexivity.
Qed.

Lemma closed_does_not_fire c (step : gmap chan bool * gmap chan bool) :
  step.1 !! c = Some true -> fires c step = false.
Proof.
  intros H. apply not_true_is_false. rewrite fires_spec. intros [H' _].
  congruence.
Qed.

Lemma make_chan_keeps (chans : gmap chan bool) g b :
  chans !! g = Some b -> (make_chan chans).2 !! g = Some b.
Proof.
  intros H. unfold make_chan. cbn. rewrite lookup_insert_ne; [exact H|].
  intros Heq. apply (is_fresh (dom chans)). rewrite Heq.
  apply elem_of_dom. eauto.
Qed.

Lemma Setup_passes_by consumer (chans : gmap chan bool) g :
  chans !! ready consumer = Some false -> chans !! g = Some true ->
  passes_by g (chans, <[ready consumer := true]> chans) /\
  <[ready consumer := true]> chans !! g = Some true.
Proof.
  intros Hopen Hg.
  assert (Hne : ready consumer <> g) by congruence.
  assert (Hg' : <[ready consumer := true]> chans !! g = Some true).
  { rewrite lookup_insert_ne by exact Hne. exact Hg. }
  split; [|exact Hg'].
  split; [apply closed_does_not_fire; exact Hg|].
  split; [exact Hg|]. split; [exact Hg'|].
  exists (ready consumer). split; [exact Hne|].
  apply fires_spec. split; [exact Hopen|apply lookup_insert_eq].
Qed.

(** Once a channel is closed, no later invocation of [Setup] touches it,
    and no [close] panics. *)
Lemma sessionSteps_closed sessions : forall consumer (chans : gmap chan bool) g,
  chans !! ready consumer = Some false ->
  chans !! g = Some true ->
  Forall (passes_by g) (fst (sessionSteps sessions consumer chans)) /\
  ~ close_panic (snd (sessionSteps sessions consumer chans)).
Proof.
  induction sessions as [|s rest IH]; intros consumer chans g Hopen Hg.
  - cbn. split; [constructor|]. intros [H|H]; discriminate H.
  - destruct (Setup_passes_by consumer chans g Hopen Hg) as [Hstep Hg'].
    cbn [sessionSteps].
    destruct s as [[]|[]]; cbn [runs_setup];
      try rewrite (Setup_open _ _ Hopen).
    + cbn. split; [constructor; [exact Hstep|constructor]|].
      intros [H|H]; discriminate H.
    + pose proof (make_chan_fresh (<[ready consumer := true]> chans))
        as (_ & Hnew & _).
      pose proof (make_chan_keeps _ g true Hg') as Hkeep.
      destruct (make_chan (<[ready consumer := true]> chans)) as [c chans''].
      cbn [fst snd] in Hnew, Hkeep.
      specialize (IH (set_ready consumer c) chans'' g Hnew Hkeep).
      destruct (sessionSteps rest (set_ready consumer c) chans'') as [later e].
      cbn [fst snd app] in IH |- *. destruct IH as [Hlater Hend].
      split; [constructor; [exact Hstep|exact Hlater]|exact Hend].
    + cbn. split; [constructor; [exact Hstep|constructor]|].
      intros [H|H]; discriminate H.
    + cbn. split; [constructor|]. intros [H|H]; discriminate H.
Qed.

(** The run from the start: when [Setup] is invoked at all, its first
    invocation fires the channel in [ready], and every later one passes it
    by. *)
Lemma sessionSteps_first sessions consumer :
  let gate := ready consumer in
  let run := sessionSteps sessions consumer (initial_chans gate) in
  ~ close_panic (snd run) /\
  if setup_invoked sessions then
    exists first later,
      fst run = first :: later /\
      first = (initial_chans gate, <[gate := true]> (initial_chans gate)) /\
      fires gate first = true /\
      Forall (passes_by gate) later
  else fst run = [].
Proof.
  intros gate run. subst run.
  assert (Hopen : initial_chans gate !! ready consumer = Some false).
  { unfold initial_chans, gate. apply lookup_singleton_eq. }
  assert (Hfire : fires gate (initial_chans gate,
                              <[gate := true]> (initial_chans gate)) = true).
  { apply fires_spec. split; [exact Hopen|apply lookup_insert_eq]. }
  destruct sessions as [|s rest].
  - cbn. split; [|reflexivity]. intros [H|H]; discriminate H.
  - cbn [sessionSteps setup_invoked].
    destruct s as [[]|[]]; cbn [runs_setup];
      try rewrite (Setup_open _ _ Hopen); fold gate.
    + cbn. split; [intros [H|H]; discriminate H|].
      do 2 eexists. repeat split; [exact Hfire|constructor].
    + pose proof (make_chan_fresh (<[gate := true]> (initial_chans gate)))
        as (_ & Hnew & _).
      pose proof (make_chan_keeps (<[gate := true]> (initial_chans gate))
                    gate true (lookup_insert_eq _ _ _)) as Hkeep.
      destruct (make_chan (<[gate := true]> (initial_chans gate))) as [c chans''].
      cbn [fst snd] in Hnew, Hkeep.
      destruct (sessionSteps_closed rest (set_ready consumer c) chans'' gate
                  Hnew Hkeep) as [Hlater Hend].
      destruct (sessionSteps rest (set_ready consumer c) chans'') as [later e].
      cbn [fst snd app] in Hlater, Hend |- *.
      split; [exact Hend|].
      do 2 eexists. repeat split; [exact Hfire|exact Hlater].
    + cbn. split; [intros [H|H]; discriminate H|].
      do 2 eexists. repeat split; [exact Hfire|constructor].
    + cbn. split; [intros [H|H]; discriminate H|reflexivity].
Qed.

Lemma filter_none {A} (f : A -> bool) l :
  Forall (fun x => f x = false) l -> List.filter f l = [].
Proof.
  induction 1 as [|x l Hx _ IH]; [reflexivity|].
  cbn. rewrite Hx. exact IH.
Qed.

(** C9: the channel [main] waits on, the one in [ready] when the sessions
    start, is fired exactly once in the life of the process, by the first
    invocation of [Setup]: that invocation finds it open in the store and
    leaves it closed.  Every invocation of a later generation finds it
    closed, leaves it closed and fires another channel, the one made after
    the session before; no [close] panics.  The channel stays unfired only
    when [Setup] is never invoked. *)
Theorem ready_fired_once sessions consumer :
  let gate := ready consumer in
  let run := sessionSteps sessions consumer (initial_chans gate) in
  ~ close_panic (snd run) /\
  (fst run = [] <-> setup_invoked sessions = false) /\
  (forall first later, fst run = first :: later ->
     first.1 !! gate = Some false /\ first.2 !! gate = Some true /\
     fires gate first = true /\
     Forall (passes_by gate) later) /\
  List.length (List.filter (fires gate) (fst run)) =
    (if setup_invoked sessions then 1 else 0)%nat.
Proof.
  intros gate run.
  destruct (sessionSteps_first sessions consumer) as [Hend Hsteps].
  fold gate in Hend, Hsteps. fold run in Hend, Hsteps.
  split; [exact Hend|].
  destruct (setup_invoked sessions).
  - destruct Hsteps as (first & later & Hrun & Hfirst & Hfire & Hlater).
    rewrite Hrun. split; [split; discriminate|]. split.
    + intros first' later' [= <- <-].
      apply fires_spec in Hfire as Hstore. destruct Hstore as [H1 H2].
      repeat split; assumption.
    + cbn. rewrite Hfire. cbn. f_equal.
      rewrite filter_none; [reflexivity|].
      eapply Forall_impl; [exact Hlater|]. intros step Hstep. apply Hstep.
  - rewrite Hsteps. split; [split; reflexivity|]. split; [|reflexivity].
    intros first later H. discriminate H.
Qed.

(** The two views of the loop agree on how it ends and on the number of
    invocations of [Setup]. *)
Lemma sessionSteps_consumeLoop sessions : forall consumer (chans : gmap chan bool),
  snd (sessionSteps sessions consumer chans) = snd (consumeLoop sessions consumer chans) /\
  List.length (fst (sessionSteps sessions consumer chans)) =
    List.length (fst (consumeLoop sessions consumer chans)).
Proof.
  induction sessions as [|s rest IH]; intros consumer chans; [split; reflexivity|].
  cbn [sessionSteps consumeLoop].
  destruct (if runs_setup s then Setup consumer chans else Return chans)
    as [chans'|reason]; [|split; reflexivity].
  destruct s as [[]|b]; cbn [runs_setup]; try (split; reflexivity).
  - destruct (make_chan chans') as [c chans''].
    specialize (IH (set_ready consumer c) chans'').
    destruct (sessionSteps rest _ chans'') as [later e].
    destruct (consumeLoop rest _ chans'') as [later' e'].
    cbn in IH |- *. destruct IH as [-> ->]. split; reflexivity.
  - destruct b; split; reflexivity.
Qed.

(** Three generations: each [Setup] closes its own channel. *)
Example three_generations :
  consumeLoop [SessionEnded false; SessionEnded false; SessionEnded true]
    modulo_relay (initial_chans 0%nat) = ([0; 1; 2]%nat, LoopReturned).
Proof. vm_compute. reflexivity. Qed.

(** ** The close loop *)

(** Both tags within the timeout of the first [select]: status 0. *)
Lemma close_in_time tie t1 t2 a b :
  0 <= t1 <= t2 -> t2 < closeTimeout ->
  status (awaitClose tie [(t1, a); (t2, b)]) = 0.
Proof.
  intros H1 H2. unfold awaitClose. cbn [closeLoop].
  rewrite (Z.max_r 0 t1) by lia. rewrite (Z.max_r t1 t2) by lia.
  rewrite (proj2 (Z.ltb_lt t1 (0 + closeTimeout))) by lia. cbn [orb].
  change (0 + 1 =? 2) with false. cbn iota.
  rewrite (proj2 (Z.ltb_lt t2 (t1 + closeTimeout))) by lia. cbn [orb].
  reflexivity.
Qed.

(** X23: what decides the status is the wait of each [select], not the
    time since the loop began: with two tags, away from the instants where
    a tag and a timer are ready together, the status is 0 exactly when the
    first tag comes within one timeout of the start and the second within
    one timeout of the first. *)
Lemma close_status tie t1 t2 a b :
  0 <= t1 <= t2 -> t1 <> closeTimeout -> t2 <> t1 + closeTimeout ->
  status (awaitClose tie [(t1, a); (t2, b)]) =
    if (t1 <? closeTimeout) && (t2 <? t1 + closeTimeout) then 0 else 1.
Proof.
  intros H1 Hn1 Hn2. unfold awaitClose. cbn [closeLoop].
  rewrite (Z.max_r 0 t1) by lia. rewrite (Z.max_r t1 t2) by lia.
  rewrite Z.add_0_l.
  rewrite (proj2 (Z.eqb_neq t1 closeTimeout)) by assumption.
  rewrite (proj2 (Z.eqb_neq t2 (t1 + closeTimeout))) by assumption.
  cbn [andb]. rewrite !orb_false_r.
  change (0 + 1 =? 2) with false. cbn iota.
  destruct (t1 <? closeTimeout); cbn; [|reflexivity].
  destruct (t2 <? t1 + closeTimeout); reflexivity.
Qed.

(** C5: the consumer side is closed after four minutes and the producer
    side after eight.  Five minutes after the loop began one tag is still
    missing, yet the loop goes on waiting, for its second [select] started a
    new timer at four minutes, and the process exits with status 0 at eight
    minutes. *)
Theorem close_timer_restarts tie :
  awaitClose tie [(4 * Minute, "consumer"); (8 * Minute, "producer")] =
    {| printed := ["Successfully closed consumer"; "Successfully closed producer"];
       status := 0;
       exit_time := 8 * Minute |} /\
  closeTimeout < 8 * Minute.
Proof. split; [vm_compute|]; reflexivity. Qed.

(** ** A run of the relay *)

(** Ten messages from the source partitions 0,0,1,1,2,2,0,1,2,0 relayed
    under [modulo] to two partitions: every one is handed off and then
    marked, and the targets are 0,0,1,1,0,0,0,1,0,0. *)
Example ten_messages :
  let sources := [0; 0; 1; 1; 2; 2; 0; 1; 2; 0] in
  let run := ConsumeClaim modulo_relay 10 (List.map message_at sources) in
  snd run = ClaimReturned None /\
  List.length (fst run) = 30%nat /\
  omap (fun ev => match ev with Handoff pm => Some (Partition pm) | _ => None end)
       (fst run) = [0; 0; 1; 1; 0; 0; 0; 1; 0; 0] /\
  omap (fun ev => match ev with Marked m => Some (cm_Partition m) | _ => None end)
       (fst run) = sources.
Proof. vm_compute. repeat split. Qed.

(** * Further properties of the code *)

(** ** The router, policy by policy *)

Lemma rem32_nonneg a b :
  0 <= a -> b <> 0 -> in_int32 b -> min_int32 < b ->
  exists r, rem32 a b = Some r /\ 0 <= r < Z.abs b.
Proof.
  intros Ha Hb Hr Hmin. unfold rem32.
  destruct (Z.eqb_spec b 0) as [|_]; [contradiction|].
  pose proof (Z.rem_nonneg a b Hb Ha) as Hn.
  pose proof (Z.rem_bound_abs a b Hb) as Hlt.
  rewrite (Z.abs_eq (Z.rem a b)) in Hlt by assumption.
  exists (Z.rem a b). split; [|lia].
  rewrite wrap32_id; [reflexivity|].
  unfold in_int32, min_int32, max_int32 in *. lia.
Qed.

(** X1: under [random] a message that passes the checks is always routed,
    whatever the partition count: the result has the value, no key, and
    names no partition. *)
Theorem random_drops_key topic m N :
  passes_validation "random" topic m ->
  let pm := {| Topic := topic; Key := None;
               Value := Some (cm_Value m); Partition := 0 |} in
  PartitionMsg "random" topic m N = routed pm /\
  targetPartition "random" pm = None.
Proof. intros H pm. split; [pass_checks H|]; reflexivity. Qed.

Lemma random_drops_key_witness :
  let pm := {| Topic := "dst"; Key := None;
               Value := Some (cm_Value (message_at 4)); Partition := 0 |} in
  PartitionMsg "random" "dst" (message_at 4) 0 = routed pm /\
  targetPartition "random" pm = None.
Proof.
  apply (random_drops_key "dst" (message_at 4) 0).
  apply message_at_valid; [discriminate|lia].
Defined.

(** On a message that is there, [PartitionMsg] panics in one situation
    only: the policy is [modulo], the three checks are passed and the
    partition count is zero. *)
Lemma record_panics_only_on_zero_count partitioner topic m N reason :
  PartitionMsg partitioner topic m N = Panic reason <->
  partitioner = "modulo" /\ passes_validation partitioner topic m /\ N = 0 /\
  reason = "runtime error: integer divide by zero".
Proof.
  split.
  - unfold PartitionMsg, passes_validation.
    destruct (String.eqb_spec partitioner "") as [|Hp]; [discriminate|].
    destruct (String.eqb_spec topic "") as [|Ht]; [discriminate|].
    cbn [orb]. rewrite len_zero.
    destruct (cm_Value m) as [|b v] eqn:Hv; [discriminate|].
    destruct (Z.ltb_spec (cm_Partition m) 0) as [|Hn]; [discriminate|].
    destruct (partitioner =? "hash")%string.
    { destruct (Z.of_nat (List.length (cm_Key m)) =? 0); discriminate. }
    destruct (partitioner =? "keeppartition")%string.
    { destruct (cm_Partition m >? sub32 N 1); discriminate. }
    destruct (String.eqb_spec partitioner "modulo") as [Hm|_].
    + unfold rem32. destruct (Z.eqb_spec N 0) as [HN|_].
      * intros [= <-]. repeat split; try assumption; discriminate.
      * destruct (_ >? _); discriminate.
    + destruct (partitioner =? "random")%string; discriminate.
  - intros (-> & H & -> & ->). pass_checks H. reflexivity.
Qed.

(** X2: [PartitionMsg] panics in two situations and no other, both with
    a policy name and a topic that are set: the pointer to the message is
    [nil], which the read of [origmsg.Value] meets; or the message is
    there, the policy is [modulo], the value is not empty, the partition is
    not negative and the partition count is zero.  In every other case it
    returns. *)
Theorem panics_on_nil_or_zero_count partitioner topic origmsg N reason :
  PartitionMsgPtr partitioner topic origmsg N = Panic reason <->
  partitioner <> "" /\ topic <> "" /\
  ((origmsg = None /\
    reason = "runtime error: invalid memory address or nil pointer dereference") \/
   (exists m, origmsg = Some m /\ partitioner = "modulo" /\
              cm_Value m <> [] /\ 0 <= cm_Partition m /\ N = 0 /\
              reason = "runtime error: integer divide by zero")).
Proof.
  unfold PartitionMsgPtr.
  destruct (String.eqb_spec partitioner "") as [Hp|Hp].
  { cbn. split; [discriminate|]. intros (H & _). contradiction. }
  destruct (String.eqb_spec topic "") as [Ht|Ht].
  { cbn. split; [discriminate|]. intros (_ & H & _). contradiction. }
  cbn [orb]. destruct origmsg as [m|].
  - rewrite record_panics_only_on_zero_count. split.
    + intros (Hm & (_ & _ & Hv & Hn) & HN & Hr).
      repeat split; try assumption. right. exists m. repeat split; assumption.
    + intros (_ & _ & [[H _]|(m' & [= <-] & Hm & Hv & Hn & HN & Hr)]);
        [discriminate H|].
      repeat split; assumption.
  - split.
    + intros [= <-]. repeat split; try assumption. left. split; reflexivity.
    + intros (_ & _ & [[_ ->]|(m' & H & _)]); [reflexivity|discriminate H].
Qed.

(** A failure is not a routed message. *)
Ltac not_routed :=
  let Hbad := fresh "Hbad" in
  intros Hbad; exfalso; exact (routed_not_failed _ _ (eq_sym Hbad)).

(** X3: whenever a routed message names its partition (the manual
    partitioner is installed, that is under [keeppartition] and [modulo]),
    the partition exists on the destination: it is at least 0 and less than
    the partition count. *)
Theorem manual_target_in_range partitioner topic m N pm k :
  in_int32 N -> min_int32 < N ->
  PartitionMsg partitioner topic m N = routed pm ->
  targetPartition partitioner pm = Some k ->
  0 <= k < N.
Proof.
  intros HN Hmin. unfold PartitionMsg, targetPartition, producerPartitioner.
  destruct ((partitioner =? "")%string || (topic =? "")%string);
    [not_routed|].
  destruct (Z.of_nat (List.length (cm_Value m)) =? 0);
    [not_routed|].
  destruct (Z.ltb_spec (cm_Partition m) 0) as [|Hn];
    [not_routed|].
  destruct (String.eqb_spec partitioner "hash") as [->|_].
  { cbn. discriminate. }
  destruct (String.eqb_spec partitioner "keeppartition") as [->|_].
  { rewrite sub32_one by assumption.
    destruct (Z.gtb_spec (cm_Partition m) (N - 1));
      [not_routed|].
    intros Hpm%routed_inj. subst pm. cbn. intros [= <-]. lia. }
  destruct (String.eqb_spec partitioner "modulo") as [->|_].
  { destruct (Z.eq_dec N 0) as [->|HN0]; [discriminate|].
    destruct (rem32_nonneg (cm_Partition m) N Hn HN0 HN Hmin) as (r & -> & Hr).
    rewrite sub32_one by assumption.
    destruct (Z.gtb_spec r (N - 1));
      [not_routed|].
    intros Hpm%routed_inj. subst pm. cbn. intros [= <-]. lia. }
  cbn [orb]. discriminate.
Qed.

Lemma manual_target_in_range_witness : 0 <= 1 < 4.
Proof.
  apply (manual_target_in_range "modulo" "dst" (message_at 5) 4
           {| Topic := "dst"; Key := Some [Byte.x6b];
              Value := Some [Byte.x76]; Partition := 1 |} 1).
  - unfold in_int32, min_int32, max_int32; lia.
  - unfold min_int32; lia.
  - reflexivity.
  - reflexivity.
Defined.

(** X4: under [modulo] a negative partition count is caught by the check
    after the remainder: the remainder of a non-negative partition is not
    negative, so it is above [numPartitions-1] and the call fails with "the
    target partition does not exist on the destination topic". *)
Theorem modulo_negative_count topic m N :
  passes_validation "modulo" topic m -> in_int32 N -> min_int32 < N -> N < 0 ->
  PartitionMsg "modulo" topic m N = failed ErrTargetMissing.
Proof.
  intros H HN Hmin Hneg.
  destruct (rem32_nonneg (cm_Partition m) N) as (r & Hrem & Hr);
    try assumption; [apply H|lia|].
  pass_checks H. cbn. rewrite Hrem, sub32_one by assumption.
  destruct (Z.gtb_spec r (N - 1)); [reflexivity|lia].
Qed.

Lemma modulo_negative_count_witness :
  PartitionMsg "modulo" "dst" (message_at 5) (-3) = failed ErrTargetMissing.
Proof.
  apply (modulo_negative_count "dst" (message_at 5) (-3)).
  - apply message_at_valid; [discriminate|lia].
  - unfold in_int32, min_int32, max_int32; lia.
  - unfold min_int32; lia.
  - lia.
Defined.

(** X5: at the least [int32] as partition count, [numPartitions-1] wraps
    around to the greatest [int32], the comparison of [keeppartition] can no
    longer fail, and every source partition is kept. *)
Theorem keeppartition_least_count_wraps topic m :
  passes_validation "keeppartition" topic m -> in_int32 (cm_Partition m) ->
  PartitionMsg "keeppartition" topic m min_int32 =
    routed {| Topic := topic; Key := Some (cm_Key m);
              Value := Some (cm_Value m); Partition := cm_Partition m |}.
Proof.
  intros H Hp. pass_checks H. cbn. rewrite sub32_one_min.
  destruct (Z.gtb_spec (cm_Partition m) max_int32); [|reflexivity].
  unfold in_int32 in Hp. lia.
Qed.

Lemma keeppartition_least_count_wraps_witness :
  PartitionMsg "keeppartition" "dst" (message_at 9) min_int32 =
    routed {| Topic := "dst"; Key := Some (cm_Key (message_at 9));
              Value := Some (cm_Value (message_at 9));
              Partition := cm_Partition (message_at 9) |}.
Proof.
  apply (keeppartition_least_count_wraps "dst" (message_at 9)).
  - apply message_at_valid; [discriminate|lia].
  - unfold in_int32, min_int32, max_int32; cbn; lia.
Defined.

(** X6: where [keeppartition] routes a message, [modulo] routes it to the
    same place: for a source partition below the partition count the two
    policies return the same message. *)
Theorem modulo_agrees_with_keeppartition topic m N :
  passes_validation "keeppartition" topic m -> in_int32 N ->
  cm_Partition m < N ->
  exists pm,
    PartitionMsg "keeppartition" topic m N = routed pm /\
    PartitionMsg "modulo" topic m N = routed pm /\
    Partition pm = cm_Partition m.
Proof.
  intros H HN Hlt.
  assert (Hp : 0 <= cm_Partition m) by apply H.
  assert (Hm : passes_validation "modulo" topic m).
  { destruct H as (_ & Ht & Hv & Hn). repeat split; try assumption. discriminate. }
  exists {| Topic := topic; Key := Some (cm_Key m);
            Value := Some (cm_Value m); Partition := cm_Partition m |}.
  split; [|split; [|reflexivity]].
  - pass_checks H. cbn.
    rewrite sub32_one by (unfold in_int32, min_int32 in *; lia).
    destruct (Z.gtb_spec (cm_Partition m) (N - 1)); [lia|reflexivity].
  - rewrite modulo_switch by (assumption || lia).
    rewrite Z.mod_small by lia. reflexivity.
Qed.

Lemma modulo_agrees_with_keeppartition_witness :
  exists pm,
    PartitionMsg "keeppartition" "dst" (message_at 2) 4 = routed pm /\
    PartitionMsg "modulo" "dst" (message_at 2) 4 = routed pm /\
    Partition pm = cm_Partition (message_at 2).
Proof.
  apply (modulo_agrees_with_keeppartition "dst" (message_at 2) 4).
  - apply message_at_valid; [discriminate|lia].
  - unfold in_int32, min_int32, max_int32; lia.
  - cbn; lia.
Defined.

(** X7: the partition count is read by [keeppartition] and [modulo] only:
    under any other policy name the result is the same for every count. *)
Theorem count_read_by_manual_policies_only partitioner topic m N N' :
  partitioner <> "keeppartition" -> partitioner <> "modulo" ->
  PartitionMsg partitioner topic m N = PartitionMsg partitioner topic m N'.
Proof.
  intros Hk Hm. unfold PartitionMsg.
  rewrite (proj2 (String.eqb_neq _ _) Hk), (proj2 (String.eqb_neq _ _) Hm).
  reflexivity.
Qed.

Lemma count_read_by_manual_policies_only_witness :
  PartitionMsg "hash" "dst" (message_at 2) 4 =
  PartitionMsg "hash" "dst" (message_at 2) 0.
Proof.
  apply (count_read_by_manual_policies_only "hash" "dst" (message_at 2) 4 0);
    discriminate.
Defined.

(** X8: what [PartitionMsg] returns is either an error with the empty
    message, or no error with a message for the configured topic, which is
    not the empty name, that carries a value of at least one byte: no
    message without a value is ever passed on. *)
Theorem error_or_message partitioner topic m N pm err :
  PartitionMsg partitioner topic m N = Return (pm, err) ->
  match err with
  | Some _ => pm = emptyProducerMessage
  | None => Topic pm = topic /\ topic <> "" /\
            Value pm = Some (cm_Value m) /\ cm_Value m <> []
  end.
Proof.
  unfold PartitionMsg.
  destruct (String.eqb_spec partitioner "") as [|Hp];
    [intros [= <- <-]; reflexivity|].
  destruct (String.eqb_spec topic "") as [|Ht];
    [intros [= <- <-]; reflexivity|].
  cbn [orb]. rewrite len_zero.
  destruct (cm_Value m) as [|b v] eqn:Hv; [intros [= <- <-]; reflexivity|].
  intros H.
  repeat match type of H with
  | (if ?c then _ else _) = _ => destruct c
  | match ?c with _ => _ end = _ => destruct c
  end;
  try discriminate H; injection H as <- <-;
  try reflexivity; repeat split; try assumption; discriminate.
Qed.

Lemma error_or_message_witness :
  match Some ErrValueNotSet with
  | Some _ => emptyProducerMessage = emptyProducerMessage
  | None => Topic emptyProducerMessage = "dst" /\ "dst" <> "" /\
            Value emptyProducerMessage = Some (cm_Value tombstone) /\
            cm_Value tombstone <> []
  end.
Proof.
  apply (error_or_message "hash" "dst" tombstone 4 emptyProducerMessage
           (Some ErrValueNotSet)).
  reflexivity.
Defined.

(** X9: [main] installs the manual partitioner exactly for the policies
    whose routed messages set [Partition]: a message routed while the
    default partitioner is in place comes from [hash] or [random] and has
    the field at zero, its unset value. *)
Theorem default_partitioner_unset_partition partitioner topic m N pm :
  PartitionMsg partitioner topic m N = routed pm ->
  producerPartitioner partitioner = DefaultPartitioner ->
  Partition pm = 0 /\ (partitioner = "hash" \/ partitioner = "random").
Proof.
  unfold PartitionMsg, producerPartitioner.
  destruct ((partitioner =? "")%string || (topic =? "")%string); [not_routed|].
  destruct (Z.of_nat (List.length (cm_Value m)) =? 0); [not_routed|].
  destruct (cm_Partition m <? 0); [not_routed|].
  destruct (String.eqb_spec partitioner "hash") as [->|_].
  { destruct (Z.of_nat (List.length (cm_Key m)) =? 0); [not_routed|].
    intros Hpm%routed_inj _. subst pm. split; [reflexivity|left; reflexivity]. }
  destruct (partitioner =? "keeppartition")%string; [cbn; discriminate|].
  destruct (partitioner =? "modulo")%string; [cbn; discriminate|].
  destruct (String.eqb_spec partitioner "random") as [->|_]; [|not_routed].
  intros Hpm%routed_inj _. subst pm. split; [reflexivity|right; reflexivity].
Qed.

Lemma default_partitioner_unset_partition_witness :
  Partition {| Topic := "dst"; Key := Some [Byte.x6b];
               Value := Some [Byte.x76]; Partition := 0 |} = 0 /\
  ("hash" = "hash" \/ "hash" = "random").
Proof.
  apply (default_partitioner_unset_partition "hash" "dst" (message_at 6) 4);
    reflexivity.
Defined.

(** ** Compression *)

Lemma lower_ascii_idem c : lower_ascii (lower_ascii c) = lower_ascii c.
Proof. destruct c as [[] [] [] [] [] [] [] []]; reflexivity. Qed.

Lemma ToLower_idem s : ToLower (ToLower s) = ToLower s.
Proof.
  induction s as [|c s IH]; [reflexivity|].
  cbn [ToLower]. rewrite lower_ascii_idem, IH. reflexivity.
Qed.

(** X10: [getCompressionCodec] knows three names, each spelled in lower
    case, and tells them apart; every other string, among them every name
    with an upper-case letter, silently gives no compression. *)
Theorem codec_names comp :
  (getCompressionCodec comp = CompressionSnappy <-> comp = "snappy") /\
  (getCompressionCodec comp = CompressionGZIP <-> comp = "gzip") /\
  (getCompressionCodec comp = CompressionLZ4 <-> comp = "lz4") /\
  (getCompressionCodec comp = CompressionNone <->
     comp <> "snappy" /\ comp <> "gzip" /\ comp <> "lz4") /\
  (ToLower comp <> comp -> getCompressionCodec comp = CompressionNone).
Proof.
  unfold getCompressionCodec.
  destruct (String.eqb_spec comp "snappy") as [->|Hs].
  { repeat split; try discriminate; try reflexivity; intros H;
      try (destruct H as (H & _)); try contradiction; discriminate. }
  destruct (String.eqb_spec comp "gzip") as [->|Hg].
  { repeat split; try discriminate; try reflexivity; intros H;
      try (destruct H as (_ & H & _)); try contradiction; discriminate. }
  destruct (String.eqb_spec comp "lz4") as [->|Hl].
  { repeat split; try discriminate; try reflexivity; intros H;
      try (destruct H as (_ & _ & H)); try contradiction; discriminate. }
  repeat split; try discriminate; try assumption; try reflexivity;
    intros H; contradiction.
Qed.

(** ** Start-up *)

(** X11: the policy name is read without regard to case: [main] takes it
    to lower case before it chooses the partitioner and builds the handler,
    so a name and its lower-case spelling give the same start-up. *)
Theorem policy_name_case_insensitive raw topic part c :
  newConsumer raw topic part c = newConsumer (ToLower raw) topic part c.
Proof. unfold newConsumer. rewrite ToLower_idem. reflexivity. Qed.

(** The count of partitions [main] stores is the length of the list, as
    long as that fits an [int32]. *)
Lemma numPartitions_length {A} (part : list A) :
  Z.of_nat (List.length part) <= max_int32 ->
  of_int (Z.of_nat (List.length part)) = Z.of_nat (List.length part).
Proof.
  intros H. unfold of_int. apply wrap32_id.
  unfold in_int32, min_int32, max_int32 in *. lia.
Qed.

(** ** The claim loop as a whole *)

Lemma ConsumeClaim_routed consumer room m rest pm :
  route consumer m = routed pm ->
  ConsumeClaim consumer (S room) (m :: rest) =
    let (events, e) := ConsumeClaim consumer room rest in
    (relayed m pm ++ events, e)%list.
Proof.
  intros H. rewrite ConsumeClaim_cons. fold (route consumer m). rewrite H.
  reflexivity.
Qed.

(** Messages that all route, with room for each, are all relayed, and the
    loop goes on with what follows them. *)
Lemma ConsumeClaim_app consumer good pms :
  Forall2 (routes_to consumer) good pms ->
  forall room rest,
    ConsumeClaim consumer (List.length good + room) (good ++ rest) =
      let (events, e) := ConsumeClaim consumer room rest in
      (concat (zip_with relayed good pms) ++ events, e)%list.
Proof.
  induction 1 as [|m pm good pms Hm _ IH]; intros room rest.
  - cbn. destruct (ConsumeClaim consumer room rest). reflexivity.
  - cbn [List.length Nat.add app zip_with concat].
    rewrite (ConsumeClaim_routed _ _ _ _ _ Hm), IH.
    destruct (ConsumeClaim consumer room rest). reflexivity.
Qed.

Lemma marked_relayed good : forall pms,
  List.length good = List.length pms ->
  marked (concat (zip_with relayed good pms)) = good /\
  handed_off (concat (zip_with relayed good pms)) = pms /\
  metered (concat (zip_with relayed good pms)) = List.length good.
Proof.
  unfold marked, handed_off, metered.
  induction good as [|m good IH]; intros [|pm pms] Hlen; try discriminate Hlen.
  - repeat split.
  - injection Hlen as Hlen. destruct (IH pms Hlen) as (H1 & H2 & H3).
    cbn. rewrite H1, H2, H3. repeat split.
Qed.

(** X12: the loop keeps the order of the partition: the messages marked
    are the first messages of the stream, in the order they came, nothing
    skipped, and the messages handed to the producer are their routed forms
    in the same order. *)
Theorem marks_in_order consumer msgs : forall room,
  let events := fst (ConsumeClaim consumer room msgs) in
  marked events `prefix_of` msgs /\
  Forall2 (routes_to consumer) (marked events) (handed_off events).
Proof.
  induction msgs as [|m rest IH]; intros room.
  - cbn. split; [apply prefix_nil|constructor].
  - cbn zeta. rewrite ConsumeClaim_cons. fold (route consumer m).
    destruct (route consumer m) as [[pm [err|]]|reason] eqn:Hroute.
    + cbn. split; [apply prefix_nil|constructor].
    + destruct room as [|room'].
      * cbn. split; [apply prefix_nil|constructor].
      * specialize (IH room'). cbn zeta in IH.
        destruct (ConsumeClaim consumer room' rest) as [events e].
        cbn in IH |- *. destruct IH as [Hpre Hall].
        split; [apply prefix_cons; exact Hpre|].
        constructor; [exact Hroute|exact Hall].
    + cbn. split; [apply prefix_nil|constructor].
Qed.

(** X13: hand-offs, ticks of the meter [messages.processed] and marks go
    together: a run has as many of one as of the others, and no more than
    the producer's input took or the stream held. *)
Theorem one_tick_one_mark_per_handoff consumer msgs : forall room,
  let events := fst (ConsumeClaim consumer room msgs) in
  List.length (handed_off events) = List.length (marked events) /\
  metered events = List.length (marked events) /\
  (List.length (marked events) <= room)%nat /\
  (List.length (marked events) <= List.length msgs)%nat.
Proof.
  induction msgs as [|m rest IH]; intros room.
  - cbn. repeat split; lia.
  - cbn zeta. rewrite ConsumeClaim_cons. fold (route consumer m).
    destruct (route consumer m) as [[pm [err|]]|reason].
    + cbn. repeat split; lia.
    + destruct room as [|room'].
      * cbn. repeat split; lia.
      * specialize (IH room'). cbn zeta in IH.
        destruct (ConsumeClaim consumer room' rest) as [events e].
        unfold metered in *. cbn in IH |- *. lia.
    + cbn. repeat split; lia.
Qed.

(** X14: the loop returns [nil] exactly when it has marked every message
    of the stream; an error, a panic or a send that blocks leaves at least
    one message unmarked. *)
Theorem returns_nil_iff_all_marked consumer msgs : forall room,
  snd (ConsumeClaim consumer room msgs) = ClaimReturned None <->
  marked (fst (ConsumeClaim consumer room msgs)) = msgs.
Proof.
  induction msgs as [|m rest IH]; intros room.
  - cbn. split; reflexivity.
  - rewrite ConsumeClaim_cons. fold (route consumer m).
    destruct (route consumer m) as [[pm [err|]]|reason].
    + cbn. split; discriminate.
    + destruct room as [|room'].
      * cbn. split; discriminate.
      * specialize (IH room').
        destruct (ConsumeClaim consumer room' rest) as [events e].
        cbn in IH |- *. rewrite IH. split; [intros ->; reflexivity|].
        intros [= H]. exact H.
    + cbn. split; discriminate.
Qed.

(** X15: the loop stops at the first message that does not route.  When
    the messages before it route and the producer's input takes them, they
    are relayed and marked, the error is logged and returned, and what
    comes after in the stream is not touched: not routed, not handed off,
    not marked. *)
Theorem stops_at_first_error consumer good pms bad pm e rest room :
  Forall2 (routes_to consumer) good pms ->
  route consumer bad = Return (pm, Some e) ->
  (List.length good <= room)%nat ->
  ConsumeClaim consumer room (good ++ bad :: rest) =
    ((concat (zip_with relayed good pms) ++ [Logged e])%list,
     ClaimReturned (Some e)) /\
  marked (fst (ConsumeClaim consumer room (good ++ bad :: rest))) = good.
Proof.
  intros Hgood Hbad Hroom.
  assert (Hrun : ConsumeClaim consumer room (good ++ bad :: rest) =
    ((concat (zip_with relayed good pms) ++ [Logged e])%list,
     ClaimReturned (Some e))).
  { replace room with (List.length good + (room - List.length good))%nat by lia.
    rewrite (ConsumeClaim_app _ _ _ Hgood), ConsumeClaim_cons.
    fold (route consumer bad). rewrite Hbad. reflexivity. }
  split; [exact Hrun|]. rewrite Hrun. cbn [fst].
  destruct (marked_relayed good pms (Forall2_length _ _ _ Hgood)) as (Hm & _).
  unfold marked in *. rewrite omap_app, Hm. cbn. apply app_nil_r.
Qed.

Lemma stops_at_first_error_witness :
  ConsumeClaim modulo_relay 5 ([message_at 3] ++ tombstone :: [message_at 1]) =
    ((concat (zip_with relayed [message_at 3]
                [{| Topic := "dst"; Key := Some [Byte.x6b];
                    Value := Some [Byte.x76]; Partition := 1 |}])
      ++ [Logged ErrValueNotSet])%list,
     ClaimReturned (Some ErrValueNotSet)) /\
  marked (fst (ConsumeClaim modulo_relay 5
                 ([message_at 3] ++ tombstone :: [message_at 1]))) =
    [message_at 3].
Proof.
  apply (stops_at_first_error modulo_relay [message_at 3]
           [{| Topic := "dst"; Key := Some [Byte.x6b];
               Value := Some [Byte.x76]; Partition := 1 |}]
           tombstone emptyProducerMessage ErrValueNotSet [message_at 1] 5%nat).
  - repeat constructor.
  - reflexivity.
  - cbn; lia.
Defined.

(** X16: the send to the producer is what holds the loop back.  When the
    producer's input takes no more than [room] sends and the stream holds
    more messages that route, the loop relays and marks exactly the first
    [room] of them and stays blocked on the next send; that message is not
    marked. *)
Theorem blocks_when_input_full consumer good pms next pm rest :
  Forall2 (routes_to consumer) good pms ->
  route consumer next = routed pm ->
  ConsumeClaim consumer (List.length good) (good ++ next :: rest) =
    (concat (zip_with relayed good pms), ClaimBlocked) /\
  marked (concat (zip_with relayed good pms)) = good.
Proof.
  intros Hgood Hnext. split.
  - replace (List.length good) with (List.length good + 0)%nat at 1 by lia.
    rewrite (ConsumeClaim_app _ _ _ Hgood), ConsumeClaim_cons.
    fold (route consumer next). rewrite Hnext. cbn. rewrite app_nil_r.
    reflexivity.
  - apply marked_relayed, (Forall2_length _ _ _ Hgood).
Qed.

Lemma blocks_when_input_full_witness :
  let pm3 := {| Topic := "dst"; Key := Some [Byte.x6b];
                Value := Some [Byte.x76]; Partition := 1 |} in
  ConsumeClaim modulo_relay (List.length [message_at 3])
      ([message_at 3] ++ message_at 4 :: []) =
    (concat (zip_with relayed [message_at 3] [pm3]), ClaimBlocked) /\
  marked (concat (zip_with relayed [message_at 3] [pm3])) = [message_at 3].
Proof.
  apply (blocks_when_input_full modulo_relay [message_at 3]
           [{| Topic := "dst"; Key := Some [Byte.x6b];
               Value := Some [Byte.x76]; Partition := 1 |}]
           (message_at 4)
           {| Topic := "dst"; Key := Some [Byte.x6b];
              Value := Some [Byte.x76]; Partition := 0 |} []).
  - repeat constructor.
  - reflexivity.
Defined.

(** ** From start-up to the claim loop *)

(** X17: start-up and the loop together, under [modulo]: when the target
    topic has at least one partition (and no more than an [int32] counts),
    every stream of messages with a value and a non-negative partition is
    relayed in full, given room for it: the loop returns [nil], marks every
    message, and the targets are the source partitions modulo the number
    of partitions of the topic. *)
Theorem startup_modulo_relays_all raw topic part c msgs room :
  ToLower raw = "modulo" -> topic <> "" ->
  part <> [] -> Z.of_nat (List.length part) <= max_int32 ->
  Forall (fun m => cm_Value m <> [] /\ 0 <= cm_Partition m) msgs ->
  (List.length msgs <= room)%nat ->
  exists consumer,
    newConsumer raw topic (Some part) c = Started (ManualPartitioner, consumer) /\
    snd (ConsumeClaim consumer room msgs) = ClaimReturned None /\
    marked (fst (ConsumeClaim consumer room msgs)) = msgs /\
    List.map Partition (handed_off (fst (ConsumeClaim consumer room msgs))) =
      List.map (fun m => cm_Partition m mod Z.of_nat (List.length part)) msgs.
Proof.
  intros Hraw Ht Hpart Hlen Hmsgs Hroom.
  unfold newConsumer. rewrite Hraw, numPartitions_length by assumption.
  eexists. split; [reflexivity|].
  set (n := Z.of_nat (List.length part)).
  set (consumer := {| ready := c; numPartitions := n; producerTopic := topic;
                      partitioner := "modulo" |}).
  set (f := fun m => {| Topic := topic; Key := Some (cm_Key m);
                        Value := Some (cm_Value m);
                        Partition := cm_Partition m mod n |}).
  assert (Hn : 0 < n) by (subst n; destruct part; [congruence|cbn; lia]).
  assert (Hgood : Forall2 (routes_to consumer) msgs (List.map f msgs)).
  { clear Hroom. induction Hmsgs as [|m msgs [Hv Hp] _ IH]; constructor; [|exact IH].
    unfold routes_to, route. cbn. apply modulo_switch.
    - repeat split; try assumption. discriminate.
    - subst n. unfold in_int32, min_int32, max_int32 in *. lia.
    - exact Hn. }
  assert (Hrun : ConsumeClaim consumer room msgs =
                 (concat (zip_with relayed msgs (List.map f msgs)), ClaimReturned None)).
  { pose proof (ConsumeClaim_app _ _ _ Hgood (room - List.length msgs) []) as Happ.
    rewrite app_nil_r in Happ.
    replace (List.length msgs + (room - List.length msgs))%nat with room in Happ by lia.
    rewrite Happ. cbn. rewrite app_nil_r. reflexivity. }
  rewrite Hrun. cbn [fst snd].
  destruct (marked_relayed msgs (List.map f msgs)) as (Hm & Hh & _).
  { rewrite length_map. reflexivity. }
  rewrite Hm, Hh. repeat split.
  rewrite List.map_map. reflexivity.
Qed.

Lemma startup_modulo_relays_all_witness :
  exists consumer,
    newConsumer "Modulo" "dst" (Some [0; 1]) 0%nat =
      Started (ManualPartitioner, consumer) /\
    snd (ConsumeClaim consumer 4 [message_at 5; message_at 2]) = ClaimReturned None /\
    marked (fst (ConsumeClaim consumer 4 [message_at 5; message_at 2])) =
      [message_at 5; message_at 2] /\
    List.map Partition
        (handed_off (fst (ConsumeClaim consumer 4 [message_at 5; message_at 2]))) =
      List.map (fun m => cm_Partition m mod Z.of_nat (List.length [0; 1]))
        [message_at 5; message_at 2].
Proof.
  apply (startup_modulo_relays_all "Modulo" "dst" [0; 1] 0%nat
           [message_at 5; message_at 2] 4%nat).
  - reflexivity.
  - discriminate.
  - discriminate.
  - cbn. unfold max_int32. lia.
  - repeat constructor; try discriminate; cbn; lia.
  - cbn. lia.
Defined.

(** X18: a target topic without partitions passes start-up, and under
    [modulo] the claim loop then panics on the first message that passes
    the checks, before anything is handed off or marked. *)
Theorem claim_panics_without_partitions raw topic c m rest room :
  ToLower raw = "modulo" -> topic <> "" ->
  cm_Value m <> [] -> 0 <= cm_Partition m ->
  exists consumer,
    newConsumer raw topic (Some []) c = Started (ManualPartitioner, consumer) /\
    ConsumeClaim consumer room (m :: rest) =
      ([], ClaimPanicked "runtime error: integer divide by zero").
Proof.
  intros Hraw Ht Hv Hp. unfold newConsumer. rewrite Hraw.
  eexists. split; [reflexivity|].
  rewrite ConsumeClaim_cons. cbn [partitioner producerTopic numPartitions].
  assert (H : passes_validation "modulo" topic m).
  { repeat split; try assumption. discriminate. }
  change (of_int (Z.of_nat (List.length (@nil Z)))) with 0.
  pass_checks H. reflexivity.
Qed.

Lemma claim_panics_without_partitions_witness :
  exists consumer,
    newConsumer "modulo" "dst" (Some []) 0%nat =
      Started (ManualPartitioner, consumer) /\
    ConsumeClaim consumer 3 (message_at 1 :: [message_at 2]) =
      ([], ClaimPanicked "runtime error: integer divide by zero").
Proof.
  apply (claim_panics_without_partitions "modulo" "dst" 0%nat (message_at 1)
           [message_at 2] 3%nat).
  - reflexivity.
  - discriminate.
  - discriminate.
  - cbn. lia.
Defined.

(** ** Sessions *)

(** X19: [Setup] closes the channel in [ready] and touches no other; a
    second [Setup] on the same channel panics with "close of closed
    channel", which is why the loop in [main] makes a new channel after
    every session. *)
Theorem setup_twice_panics consumer (chans : gmap chan bool) :
  chans !! ready consumer = Some false ->
  exists chans' : gmap chan bool,
    Setup consumer chans = Return chans' /\
    chans' !! ready consumer = Some true /\
    (forall c, c <> ready consumer -> chans' !! c = chans !! c) /\
    Setup consumer chans' = Panic "close of closed channel".
Proof.
  intros Hopen. exists (<[ready consumer := true]> chans).
  split; [apply Setup_open; exact Hopen|].
  split; [apply lookup_insert_eq|].
  split.
  - intros c Hc. apply lookup_insert_ne. congruence.
  - unfold Setup, close_chan. rewrite lookup_insert_eq. reflexivity.
Qed.

Lemma setup_twice_panics_witness :
  exists chans' : gmap chan bool,
    Setup modulo_relay (initial_chans 0%nat) = Return chans' /\
    chans' !! ready modulo_relay = Some true /\
    (forall c, c <> ready modulo_relay -> chans' !! c = initial_chans 0%nat !! c) /\
    Setup modulo_relay chans' = Panic "close of closed channel".
Proof.
  apply (setup_twice_panics modulo_relay (initial_chans 0%nat)).
  reflexivity.
Defined.

(** X20: the loop around [Consume] goes from session to session as long
    as they end without the context being cancelled, and ends at the first
    that does not: it returns after a session that ended with the context
    cancelled and panics with "Error from consumer" after one that failed.
    The sessions listed after that one never run, and [Setup] has run once
    for every session before it. *)
Theorem loop_ends_at_first_stop n s rest : forall consumer (chans : gmap chan bool),
  chans !! ready consumer = Some false ->
  s <> SessionEnded false ->
  let run := consumeLoop (replicate n (SessionEnded false) ++ s :: rest)
               consumer chans in
  snd run = match s with
            | SessionEnded _ => LoopReturned
            | SessionFailed _ => LoopPanicked "Error from consumer"
            end /\
  List.length (fst run) = (n + if runs_setup s then 1 else 0)%nat.
Proof.
  induction n as [|n IH]; intros consumer chans Hopen Hs run; subst run.
  - cbn [replicate app consumeLoop].
    destruct s as [[]|[]]; try congruence; cbn [runs_setup];
      try rewrite (Setup_open _ _ Hopen); cbn; split; reflexivity.
  - cbn [replicate app consumeLoop runs_setup].
    rewrite (Setup_open _ _ Hopen).
    pose proof (make_chan_fresh (<[ready consumer := true]> chans))
      as (_ & Hnew & _).
    destruct (make_chan (<[ready consumer := true]> chans)) as [c chans''].
    cbn [fst snd] in Hnew.
    specialize (IH (set_ready consumer c) chans'' Hnew Hs). cbn zeta in IH.
    destruct (consumeLoop _ (set_ready consumer c) chans'') as [later e].
    cbn in IH |- *. destruct IH as [-> ->]. split; reflexivity.
Qed.

Lemma loop_ends_at_first_stop_witness :
  let run := consumeLoop (replicate 2 (SessionEnded false) ++
                            SessionFailed true :: [SessionEnded false])
               modulo_relay (initial_chans 0%nat) in
  snd run = LoopPanicked "Error from consumer" /\
  List.length (fst run) = (2 + 1)%nat.
Proof.
  apply (loop_ends_at_first_stop 2 (SessionFailed true) [SessionEnded false]
           modulo_relay (initial_chans 0%nat)).
  - reflexivity.
  - discriminate.
Defined.

(** ** The close loop *)

Lemma status_say line e : status (say line e) = status e.
Proof. reflexivity. Qed.

Lemma exit_time_say line e : exit_time (say line e) = exit_time e.
Proof. reflexivity. Qed.

Lemma closeLoop_bounds tie sends : forall now closecnt,
  closecnt = 0 \/ closecnt = 1 ->
  (status (closeLoop tie now closecnt sends) = 0 \/
   status (closeLoop tie now closecnt sends) = 1) /\
  now <= exit_time (closeLoop tie now closecnt sends)
      <= now + (2 - closecnt) * closeTimeout.
Proof.
  assert (HD : 0 < closeTimeout) by reflexivity.
  induction sends as [|[t res] rest IH]; intros now closecnt Hc.
  - cbn. split; [right; reflexivity|]. nia.
  - cbn [closeLoop].
    destruct ((Z.max now t <? now + closeTimeout) ||
              ((Z.max now t =? now + closeTimeout) && tie closecnt)) eqn:Hrecv.
    + assert (Harr : now <= Z.max now t <= now + closeTimeout).
      { split; [lia|].
        apply orb_true_iff in Hrecv as [H|H]; [lia|].
        apply andb_true_iff in H as [H _]. lia. }
      rewrite status_say, exit_time_say.
      destruct Hc as [-> | ->].
      * change (0 + 1 =? 2) with false. cbn iota.
        destruct (IH (Z.max now t) (0 + 1)) as [Hst Hex]; [right; reflexivity|].
        split; [exact Hst|]. nia.
      * change (1 + 1 =? 2) with true. cbn. split; [left; reflexivity|]. nia.
    + cbn. split; [right; reflexivity|]. nia.
Qed.

(** X21: the close loop always ends the process, with status 0 or 1, and
    does so within twice the timeout, ten minutes, of its start, whatever
    tags arrive and when: each of its at most two waits lasts one timeout at
    the longest. *)
Theorem close_bounded tie sends :
  (status (awaitClose tie sends) = 0 \/ status (awaitClose tie sends) = 1) /\
  0 <= exit_time (awaitClose tie sends) <= 2 * closeTimeout.
Proof.
  destruct (closeLoop_bounds tie sends 0 0) as [Hst Hex]; [left; reflexivity|].
  split; [exact Hst|]. unfold awaitClose. lia.
Qed.

(** X22: one tag is not enough.  When no close sequence or only one ever
    sends its tag, the process exits with status 1, and not before a full
    timeout has gone by since the start of the loop or since the one tag
    was received. *)
Theorem one_tag_times_out tie t res :
  status (awaitClose tie []) = 1 /\
  exit_time (awaitClose tie []) = closeTimeout /\
  status (awaitClose tie [(t, res)]) = 1 /\
  closeTimeout <= exit_time (awaitClose tie [(t, res)]) /\
  (0 <= t < closeTimeout ->
     exit_time (awaitClose tie [(t, res)]) = t + closeTimeout).
Proof.
  unfold awaitClose. cbn [closeLoop].
  split; [reflexivity|]. split; [reflexivity|].
  rewrite Z.add_0_l.
  destruct ((Z.max 0 t <? closeTimeout) ||
            ((Z.max 0 t =? closeTimeout) && tie 0)) eqn:Hrecv.
  - change (0 + 1 =? 2) with false. cbn.
    split; [reflexivity|]. split; [lia|].
    intros Ht. rewrite Z.max_r by lia. reflexivity.
  - cbn. split; [reflexivity|]. split; [lia|].
    intros Ht. apply orb_false_iff in Hrecv as [H _]. lia.
Qed.

Lemma close_status_witness :
  status (awaitClose (fun _ => true)
            [(4 * Minute, "consumer"); (10 * Minute, "producer")]) =
    if (4 * Minute <? closeTimeout) && (10 * Minute <? 4 * Minute + closeTimeout)
    then 0 else 1.
Proof.
  apply (close_status (fun _ => true) (4 * Minute) (10 * Minute)
           "consumer" "producer").
  - unfold Minute. lia.
  - discriminate.
  - discriminate.
Defined.

(** ** The run loop *)

Lemma markMeter_same name (registry : gmap string Z) :
  default 0 (markMeter name registry !! name) = default 0 (registry !! name) + 1.
Proof. unfold markMeter. rewrite lookup_insert_eq. reflexivity. Qed.

Lemma markMeter_other name other (registry : gmap string Z) :
  name <> other -> markMeter name registry !! other = registry !! other.
Proof. intros H. unfold markMeter. apply lookup_insert_ne. exact H. Qed.

Lemma consumer_errors_consumer e events :
  consumer_errors (ConsumerGroupError e :: events) = e :: consumer_errors events.
Proof. reflexivity. Qed.

Lemma consumer_errors_producer e events :
  consumer_errors (ProducerError e :: events) = consumer_errors events.
Proof. reflexivity. Qed.

Lemma producer_errors_consumer e events :
  producer_errors (ConsumerGroupError e :: events) = producer_errors events.
Proof. reflexivity. Qed.

Lemma producer_errors_producer e events :
  producer_errors (ProducerError e :: events) = e :: producer_errors events.
Proof. reflexivity. Qed.

Lemma logged_lines_consumer e events :
  logged_lines (ConsumerGroupError e :: events) = e :: logged_lines events.
Proof. reflexivity. Qed.

Lemma logged_lines_producer e events :
  logged_lines (ProducerError e :: events) = e :: logged_lines events.
Proof. reflexivity. Qed.

(** X24: while the run loop runs, every error of the consumer group and
    of the producer is logged, in the order taken, and counted on its own
    meter, [consumer.errors] or [producer.errors]; the loop changes no other
    meter, and it stops counting at the first signal or cancellation. *)
Theorem runloop_counts events : forall registry : gmap string Z,
  let seen := before_leaving events in
  let result := runloop events registry in
  result.1.1 = logged_lines seen /\
  List.length result.1.1 =
    (List.length (consumer_errors seen) + List.length (producer_errors seen))%nat /\
  default 0 (result.1.2 !! "consumer.errors") =
    default 0 (registry !! "consumer.errors") +
    Z.of_nat (List.length (consumer_errors seen)) /\
  default 0 (result.1.2 !! "producer.errors") =
    default 0 (registry !! "producer.errors") +
    Z.of_nat (List.length (producer_errors seen)) /\
  (forall name, name <> "consumer.errors" -> name <> "producer.errors" ->
     result.1.2 !! name = registry !! name).
Proof.
  induction events as [|ev rest IH]; intros registry.
  - cbn. repeat split; lia.
  - destruct ev as [| |e|e]; cbn [before_leaving leaves_loop runloop].
    + cbn. repeat split; lia.
    + cbn. repeat split; lia.
    + specialize (IH (markMeter "consumer.errors" registry)). cbn zeta in IH.
      destruct (runloop rest (markMeter "consumer.errors" registry))
        as [[log registry'] unread].
      cbn [fst snd] in IH |- *.
      rewrite consumer_errors_consumer, producer_errors_consumer.
      rewrite logged_lines_consumer. cbn [List.length].
      destruct IH as (Hlines & Hlog & Hc & Hp & Hother).
      rewrite markMeter_same in Hc.
      rewrite markMeter_other in Hp by discriminate.
      repeat split; try lia; [rewrite Hlines; reflexivity|].
      intros name H1 H2. rewrite (Hother name H1 H2).
      apply markMeter_other. congruence.
    + specialize (IH (markMeter "producer.errors" registry)). cbn zeta in IH.
      destruct (runloop rest (markMeter "producer.errors" registry))
        as [[log registry'] unread].
      cbn [fst snd] in IH |- *.
      rewrite consumer_errors_producer, producer_errors_producer.
      rewrite logged_lines_producer. cbn [List.length].
      destruct IH as (Hlines & Hlog & Hc & Hp & Hother).
      rewrite markMeter_same in Hp.
      rewrite markMeter_other in Hc by discriminate.
      repeat split; try lia; [rewrite Hlines; reflexivity|].
      intros name H1 H2. rewrite (Hother name H1 H2).
      apply markMeter_other. congruence.
Qed.

(** X25: errors of the consumer group and of the producer never end the
    run loop, however many there are; the first signal or cancellation
    does, and the events after it are left unread. *)
Theorem runloop_leaves events (registry : gmap string Z) :
  ((runloop events registry).2 = None <->
     Forall (fun ev => leaves_loop ev = false) events) /\
  (forall errors stop rest,
     events = (errors ++ stop :: rest)%list ->
     Forall (fun ev => leaves_loop ev = false) errors ->
     leaves_loop stop = true ->
     (runloop events registry).2 = Some rest /\
     (runloop events registry).1 = (runloop errors registry).1).
Proof.
  split.
  - revert registry. induction events as [|ev rest IH]; intros registry.
    + cbn. split; [constructor|reflexivity].
    + destruct ev as [| |e|e]; cbn [runloop].
      * cbn. split; [discriminate|]. intros H. inversion H. discriminate.
      * cbn. split; [discriminate|]. intros H. inversion H. discriminate.
      * specialize (IH (markMeter "consumer.errors" registry)).
        destruct (runloop rest _) as [[log registry'] unread]. cbn in IH |- *.
        rewrite IH. split; [constructor; [reflexivity|assumption]|].
        intros H. inversion H. assumption.
      * specialize (IH (markMeter "producer.errors" registry)).
        destruct (runloop rest _) as [[log registry'] unread]. cbn in IH |- *.
        rewrite IH. split; [constructor; [reflexivity|assumption]|].
        intros H. inversion H. assumption.
  - intros errors stop rest -> Herr Hstop. revert registry.
    induction Herr as [|ev errors Hev _ IH]; intros registry.
    + destruct stop; try discriminate Hstop; cbn; split; reflexivity.
    + destruct ev as [| |e|e]; try discriminate Hev;
        cbn [app runloop].
      * specialize (IH (markMeter "consumer.errors" registry)).
        destruct (runloop (errors ++ stop :: rest) _) as [[log registry'] unread].
        destruct (runloop errors _) as [[log0 registry0] unread0].
        cbn in IH |- *. destruct IH as [-> [= -> ->]]. split; reflexivity.
      * specialize (IH (markMeter "producer.errors" registry)).
        destruct (runloop (errors ++ stop :: rest) _) as [[log registry'] unread].
        destruct (runloop errors _) as [[log0 registry0] unread0].
        cbn in IH |- *. destruct IH as [-> [= -> ->]]. split; reflexivity.
Qed.
